(** * MCP gateway manager: a shallow embedding of [src/mcp-gateway.ts]

    The module supervises "supergateway" helper processes for stdio-type
    MCP servers and health-checks http-type ones.  The embedding keeps the
    module's mutable state explicit: the [ManagedGateway] objects live in a
    store and are named by reference, because the event handlers installed
    by [startGatewayProcess] close over the object itself while the
    [managedGateways] map only holds one reference per name. *)

From Stdlib Require Import ZArith NArith Lia Bool Ascii.
From stdpp Require Import base list strings pretty gmap.

Local Open Scope string_scope.
Local Open Scope list_scope.

(** ** JavaScript numbers, as far as the module uses them

    The only arithmetic in the module is [restartCount++] and
    [Math.min(1000 * Math.pow(2, restartCount), MAX_RESTART_DELAY)].
    Every finite value these produce is an integer times a power of two
    with a short mantissa, which binary64 represents exactly; what the
    format adds to the integers is the overflow to [Infinity] past
    [2^1024] and the end of exact increments at [2^53]. *)

Inductive number : Type :=
  | Fin (z : Z)
  | Infinity.

(** [Math.pow(2, n)] for a natural [n]: exact up to the largest binary64
    exponent, [Infinity] beyond it. *)
Definition Math_pow2 (n : N) : number :=
  if (n <=? 1023)%N then Fin (2 ^ Z.of_N n) else Infinity.

(** [k * x] for a positive integer constant [k]: the product overflows to
    [Infinity] once it reaches [2^1024]. *)
Definition js_mul (k : Z) (x : number) : number :=
  match x with
  | Fin z => if (k * z <? 2 ^ 1024)%Z then Fin (k * z) else Infinity
  | Infinity => Infinity
  end.

Definition Math_min (x y : number) : number :=
  match x, y with
  | Fin a, Fin b => Fin (Z.min a b)
  | Fin a, Infinity => Fin a
  | Infinity, Fin b => Fin b
  | Infinity, Infinity => Infinity
  end.

(** [n++] on a counter: [2^53 + 1] rounds back to [2^53]. *)
Definition js_incr (n : N) : N :=
  if (n <? 2 ^ 53)%N then N.succ n else n.

Definition MAX_RESTART_DELAY : Z := 60000.
Definition HEALTH_CHECK_INTERVAL : Z := 30000.
Definition STARTUP_HEALTH_TIMEOUT : Z := 10000.

Definition getRestartDelay (restartCount : N) : number :=
  Math_min (js_mul 1000 (Math_pow2 restartCount)) (Fin MAX_RESTART_DELAY).


(** ** Declarations and managed gateways *)

Inductive GatewayType : Type := stdio | http.

(** [McpGatewayEntry]: the fields the interface marks with [?] may be
    absent from the parsed JSON, and read as [undefined] then. *)
Record McpGatewayEntry : Type := {
  name : string;
  type : GatewayType;
  command : option string;
  args : option (list string);
  env : option (list (string * string));
  port : option Z;
  url : option string;
  optional : option bool;
  description : option string;
}.

(** References into the store of [ManagedGateway] objects, and the handles
    the platform gives out for child processes, timeouts and intervals. *)
Abbreviation ref := nat.
Abbreviation handle := nat.

Record ManagedGateway : Type := {
  entry : McpGatewayEntry;
  process : option handle;
  healthy : bool;
  restartCount : N;
  restartTimer : option handle;
}.

Definition set_process (p : option handle) (m : ManagedGateway) : ManagedGateway :=
  {| entry := entry m; process := p; healthy := healthy m;
     restartCount := restartCount m; restartTimer := restartTimer m |}.

Definition set_healthy (b : bool) (m : ManagedGateway) : ManagedGateway :=
  {| entry := entry m; process := process m; healthy := b;
     restartCount := restartCount m; restartTimer := restartTimer m |}.

Definition set_restartCount (n : N) (m : ManagedGateway) : ManagedGateway :=
  {| entry := entry m; process := process m; healthy := healthy m;
     restartCount := n; restartTimer := restartTimer m |}.

Definition set_restartTimer (t : option handle) (m : ManagedGateway) : ManagedGateway :=
  {| entry := entry m; process := process m; healthy := healthy m;
     restartCount := restartCount m; restartTimer := t |}.

(** ** The logger *)

Inductive Level : Type := debug | info | warn | error.

Inductive LogValue : Type :=
  | LStr (s : string)
  | LNum (n : number)
  | LNull
  | LUndefined
  | LErr                      (* an error object *)
  | LConfigPath.              (* the value of MCP_GATEWAY_CONFIG_PATH, from config.js *)

Record LogEntry : Type := {
  level : Level;
  ctx : list (string * LogValue);
  msg : string;
}.

(** ** The platform: URL parsing and the network

    [new URL(s)] either throws a [TypeError] ([None]) or yields the parsed
    components; an [http.get] request then emits a response, an error or a
    timeout first, and that first event settles the probe. *)

Module URL.
Record t : Type := {
  hostname : string;
  port : string;
  pathname : string;
}.
End URL.

Inductive RequestEvent : Type :=
  | response (statusCode : Z)
  | request_error
  | request_timeout.

Record Platform : Type := {
  URL_new : string -> option URL.t;
  http_get : URL.t -> RequestEvent;
}.

(** ** Module state *)

Record Timeout : Type := {
  timeout_id : handle;
  timeout_target : ref;      (* fires [startGatewayProcess(managed)] *)
  timeout_delay : number;
}.

(** A call of [checkAllHealth] that is suspended at
    [await healthCheck(url)] (l.183): what the call holds on to while its
    probe is in flight. *)
Record Pass : Type := {
  pass_name : string;          (* the loop variables [name] and [managed] *)
  pass_managed : ref;
  pass_wasHealthy : bool;      (* [wasHealthy], read before the probe was sent *)
  pass_request : URL.t;        (* the request in flight *)
  pass_index : nat;            (* the Map iterator: the entries it has given out *)
  pass_of_startup : bool;      (* the call is awaited by [startMcpGateways] (l.221) *)
}.

Record State : Type := {
  store : list ManagedGateway;             (* the ManagedGateway objects *)
  managedGateways : list (string * ref);   (* the Map, in insertion order *)
  healthCheckTimer : option handle;
  children : list (handle * ref);          (* child processes yet to emit 'close',
                                              each with the object its listeners close over *)
  timeouts : list Timeout;                 (* pending setTimeout callbacks *)
  intervals : list (handle * Z);           (* active setInterval timers, with their period *)
  signalled : list handle;                 (* children sent SIGTERM *)
  awaiting : list Z;                       (* the waits of suspended startMcpGateways calls *)
  passes : list Pass;                      (* the suspended checkAllHealth calls *)
  fresh : handle;                          (* next handle the platform gives out *)
  log : list LogEntry;
}.

Definition initial : State :=
  {| store := []; managedGateways := []; healthCheckTimer := None;
     children := []; timeouts := []; intervals := []; signalled := [];
     awaiting := []; passes := []; fresh := 0; log := [] |}.

Definition set_store (x : list ManagedGateway) (st : State) : State :=
  {| store := x; managedGateways := managedGateways st;
     healthCheckTimer := healthCheckTimer st; children := children st;
     timeouts := timeouts st; intervals := intervals st;
     signalled := signalled st; awaiting := awaiting st; passes := passes st; fresh := fresh st;
     log := log st |}.

Definition set_managedGateways (x : list (string * ref)) (st : State) : State :=
  {| store := store st; managedGateways := x;
     healthCheckTimer := healthCheckTimer st; children := children st;
     timeouts := timeouts st; intervals := intervals st;
     signalled := signalled st; awaiting := awaiting st; passes := passes st; fresh := fresh st;
     log := log st |}.

Definition set_healthCheckTimer (x : option handle) (st : State) : State :=
  {| store := store st; managedGateways := managedGateways st;
     healthCheckTimer := x; children := children st;
     timeouts := timeouts st; intervals := intervals st;
     signalled := signalled st; awaiting := awaiting st; passes := passes st; fresh := fresh st;
     log := log st |}.

Definition set_children (x : list (handle * ref)) (st : State) : State :=
  {| store := store st; managedGateways := managedGateways st;
     healthCheckTimer := healthCheckTimer st; children := x;
     timeouts := timeouts st; intervals := intervals st;
     signalled := signalled st; awaiting := awaiting st; passes := passes st; fresh := fresh st;
     log := log st |}.

Definition set_timeouts (x : list Timeout) (st : State) : State :=
  {| store := store st; managedGateways := managedGateways st;
     healthCheckTimer := healthCheckTimer st; children := children st;
     timeouts := x; intervals := intervals st;
     signalled := signalled st; awaiting := awaiting st; passes := passes st; fresh := fresh st;
     log := log st |}.

Definition set_intervals (x : list (handle * Z)) (st : State) : State :=
  {| store := store st; managedGateways := managedGateways st;
     healthCheckTimer := healthCheckTimer st; children := children st;
     timeouts := timeouts st; intervals := x;
     signalled := signalled st; awaiting := awaiting st; passes := passes st; fresh := fresh st;
     log := log st |}.

Definition set_signalled (x : list handle) (st : State) : State :=
  {| store := store st; managedGateways := managedGateways st;
     healthCheckTimer := healthCheckTimer st; children := children st;
     timeouts := timeouts st; intervals := intervals st;
     signalled := x; awaiting := awaiting st; passes := passes st; fresh := fresh st;
     log := log st |}.

Definition set_awaiting (x : list Z) (st : State) : State :=
  {| store := store st; managedGateways := managedGateways st;
     healthCheckTimer := healthCheckTimer st; children := children st;
     timeouts := timeouts st; intervals := intervals st;
     signalled := signalled st; awaiting := x; passes := passes st; fresh := fresh st;
     log := log st |}.

Definition set_passes (x : list Pass) (st : State) : State :=
  {| store := store st; managedGateways := managedGateways st;
     healthCheckTimer := healthCheckTimer st; children := children st;
     timeouts := timeouts st; intervals := intervals st;
     signalled := signalled st; awaiting := awaiting st; passes := x; fresh := fresh st;
     log := log st |}.

Definition set_fresh (x : handle) (st : State) : State :=
  {| store := store st; managedGateways := managedGateways st;
     healthCheckTimer := healthCheckTimer st; children := children st;
     timeouts := timeouts st; intervals := intervals st;
     signalled := signalled st; awaiting := awaiting st; passes := passes st; fresh := x;
     log := log st |}.

Definition set_log (x : list LogEntry) (st : State) : State :=
  {| store := store st; managedGateways := managedGateways st;
     healthCheckTimer := healthCheckTimer st; children := children st;
     timeouts := timeouts st; intervals := intervals st;
     signalled := signalled st; awaiting := awaiting st; passes := passes st; fresh := fresh st;
     log := x |}.

(** ** Computations: state passing with thrown errors

    [BadRef] has no JavaScript counterpart: it is the outcome of reading a
    reference outside the store.  The references the module keeps all
    point into the store (see [refs_valid_run]). *)

Inductive JsError : Type :=
  | TypeError (what : string)
  | BadRef.

Inductive Completion (A : Type) : Type :=
  | Normal (a : A)
  | Throw (e : JsError).
Arguments Normal {A} a.
Arguments Throw {A} e.

Definition M (A : Type) : Type := State -> Completion A * State.

Definition ret {A} (a : A) : M A := fun st => (Normal a, st).

Definition throw {A} (e : JsError) : M A := fun st => (Throw e, st).

Definition bind {A B} (m : M A) (k : A -> M B) : M B :=
  fun st =>
    match m st with
    | (Normal a, st') => k a st'
    | (Throw e, st') => (Throw e, st')
    end.

Definition gets {A} (f : State -> A) : M A := fun st => (Normal (f st), st).

Definition modify (f : State -> State) : M unit := fun st => (Normal tt, f st).

Declare Scope js_scope.
Delimit Scope js_scope with js.
Notation "'let*' x ':=' m 'in' k" := (bind m (fun x => k))
  (at level 10, x name, m at level 100, k at level 200) : js_scope.
Notation "m '>>' k" := (bind m (fun _ => k))
  (at level 90, right associativity) : js_scope.
Local Open Scope js_scope.

(** [for (const x of xs) body] *)
Fixpoint for_of {A} (xs : list A) (body : A -> M unit) : M unit :=
  match xs with
  | [] => ret tt
  | x :: rest => body x >> for_of rest body
  end.

(** [await p] on a settled promise. *)
Definition await {A} (p : Completion A) : M A := fun st => (p, st).

Definition exec {A} (m : M A) (st : State) : State := snd (m st).
Definition outcome {A} (m : M A) (st : State) : Completion A := fst (m st).

(** ** Primitive effects *)

Definition logger (l : Level) (c : list (string * LogValue)) (text : string) : M unit :=
  modify (fun st => set_log (log st ++ [{| level := l; ctx := c; msg := text |}]) st).

(** Allocation of an object literal. *)
Definition new_object (m : ManagedGateway) : M ref :=
  fun st => (Normal (length (store st)), set_store (store st ++ [m]) st).

(** Reading the object behind a reference. *)
Definition deref (r : ref) : M ManagedGateway :=
  fun st =>
    match store st !! r with
    | Some m => (Normal m, st)
    | None => (Throw BadRef, st)
    end.

(** A field assignment [managed.f = v]. *)
Definition assign (r : ref) (f : ManagedGateway -> ManagedGateway) : M unit :=
  modify (fun st => set_store (alter f r (store st)) st).

Definition new_handle : M handle :=
  fun st => (Normal (fresh st), set_fresh (S (fresh st)) st).

(** [Map.prototype.set]: an existing key keeps its place in the iteration
    order and gets the new value; a new key goes last. *)
Fixpoint Map_set {V} (k : string) (v : V) (m : list (string * V)) : list (string * V) :=
  match m with
  | [] => [(k, v)]
  | (k', v') :: rest =>
      if String.eqb k' k then (k, v) :: rest else (k', v') :: Map_set k v rest
  end.

Fixpoint Map_get {V} (k : string) (m : list (string * V)) : option V :=
  match m with
  | [] => None
  | (k', v') :: rest => if String.eqb k' k then Some v' else Map_get k rest
  end.

Definition setTimeout (target : ref) (delay : number) : M handle :=
  let* t := new_handle in
  modify (fun st => set_timeouts (timeouts st ++
    [{| timeout_id := t; timeout_target := target; timeout_delay := delay |}]) st) >>
  ret t.

Definition clearTimeout (t : handle) : M unit :=
  modify (fun st =>
    set_timeouts (filter (fun x => timeout_id x <> t) (timeouts st)) st).

Definition setInterval (period : Z) : M handle :=
  let* t := new_handle in
  modify (fun st => set_intervals (intervals st ++ [(t, period)]) st) >>
  ret t.

Definition clearInterval (t : handle) : M unit :=
  modify (fun st => set_intervals (filter (fun x => x.1 <> t) (intervals st)) st).

(** [proc.kill('SIGTERM')]: the signal is sent; the child emits 'close'
    later, as its own event. *)
Definition kill (p : handle) : M unit :=
  modify (fun st => set_signalled (signalled st ++ [p]) st).

(** ** Strings *)

(** A value of type [string | undefined] converted with [ToString]. *)
Definition ToString (v : option string) : string :=
  match v with
  | Some s => s
  | None => "undefined"
  end.

(** [`${entry.port}`]: a port is an integer, printed in decimal. *)
Definition port_text (p : option Z) : string :=
  match p with
  | Some z => pretty z
  | None => "undefined"
  end.

Fixpoint strip_prefix (pat s : string) : option string :=
  match pat, s with
  | EmptyString, _ => Some s
  | String a pat', String b s' =>
      if Ascii.eqb a b then strip_prefix pat' s' else None
  | String _ _, EmptyString => None
  end.

(** [s.replace(pat, rep)] with a string pattern: the first occurrence of
    [pat] is replaced (the replacement used here has no [$] patterns). *)
Fixpoint String_replace (pat rep s : string) : string :=
  match strip_prefix pat s with
  | Some rest => rep +:+ rest
  | None =>
      match s with
      | EmptyString => EmptyString
      | String c s' => String c (String_replace pat rep s')
      end
  end.

(** [s.includes(pat)] *)
Fixpoint String_includes (pat s : string) : bool :=
  match strip_prefix pat s with
  | Some _ => true
  | None =>
      match s with
      | EmptyString => false
      | String _ s' => String_includes pat s'
      end
  end.

(** ** Truthiness of the optional fields *)

Definition truthy_string (v : option string) : bool :=
  match v with
  | Some EmptyString => false
  | Some _ => true
  | None => false
  end.

Definition truthy_number (v : option Z) : bool :=
  match v with
  | Some 0%Z => false
  | Some _ => true
  | None => false
  end.

Definition truthy_bool (v : option bool) : bool :=
  match v with
  | Some b => b
  | None => false
  end.

(** ** The configuration file

    [JSON.parse] returns whatever the file holds; nothing checks it against
    [McpGatewayConfig].  The embedding covers the file being absent, the
    read or the parse throwing, the value [null], and an object whose
    [gateways] property is either missing or a list of entries. *)

Record McpGatewayConfig : Type := {
  gateways : option (list McpGatewayEntry);
}.

Inductive ConfigFile : Type :=
  | file_absent
  | file_unparsable
  | file_parsed (v : option McpGatewayConfig).

Definition loadConfig (file : ConfigFile) : M (option McpGatewayConfig) :=
  match file with
  | file_absent =>
      logger info [] "No MCP gateway config found, skipping" >>
      ret None
  | file_unparsable =>
      logger error [("err", LErr); ("path", LConfigPath)]
        "Failed to parse MCP gateway config" >>
      ret None
  | file_parsed v => ret v
  end.

(** ** Addresses and the health probe *)

Definition getGatewayUrl (e : McpGatewayEntry) : option string :=
  match type e with
  | http => url e
  | stdio => Some ("http://127.0.0.1:" +:+ port_text (port e) +:+ "/sse")
  end.

(** The promise [healthCheck(url)] returns, once settled: [Normal b] when
    it resolves to [b], [Throw] when it rejects.  The executor runs
    [new URL(url)] first, and an exception thrown by an executor rejects
    the promise. *)
Definition healthCheck (w : Platform) (address : string) : Completion bool :=
  match URL_new w address with
  | None => Throw (TypeError "Invalid URL")
  | Some parsedUrl =>
      match http_get w parsedUrl with
      | response _ => Normal true
      | request_error => Normal false
      | request_timeout => Normal false
      end
  end.

(** ** The process launcher

    What the helper is invoked with (resolved paths, argument list,
    environment) does not reach the module state; a spawn logs and yields
    a new child handle. *)

Definition number_value (v : option Z) : LogValue :=
  match v with
  | Some z => LNum (Fin z)
  | None => LUndefined
  end.

Definition string_value (v : option string) : LogValue :=
  match v with
  | Some s => LStr s
  | None => LUndefined
  end.

Definition spawnSupergateway (e : McpGatewayEntry) : M handle :=
  logger info [("name", LStr (name e)); ("port", number_value (port e))]
    "Spawning supergateway" >>
  new_handle.

(** [proc.on('close', ...)] and [proc.on('error', ...)]: both listeners
    close over [managed]. *)
Definition listen (proc : handle) (managed : ref) : M unit :=
  modify (fun st => set_children (children st ++ [(proc, managed)]) st).

Definition code_value (code : option Z) : LogValue :=
  match code with
  | Some z => LNum (Fin z)
  | None => LNull
  end.

(** The 'close' listener. *)
Definition on_close (managed : ref) (code : option Z) : M unit :=
  let* m := deref managed in
  logger warn [("gateway", LStr (name (entry m))); ("code", code_value code)]
    "Supergateway process exited" >>
  assign managed (set_healthy false) >>
  assign managed (set_process None) >>
  let* m := deref managed in
  let delay := getRestartDelay (restartCount m) in
  assign managed (set_restartCount (js_incr (restartCount m))) >>
  let* m := deref managed in
  logger info [("gateway", LStr (name (entry m))); ("delay", LNum delay);
               ("restartCount", LNum (Fin (Z.of_N (restartCount m))))]
    "Scheduling gateway restart" >>
  let* t := setTimeout managed delay in
  assign managed (set_restartTimer (Some t)).

(** The 'error' listener. *)
Definition on_error (managed : ref) : M unit :=
  let* m := deref managed in
  logger error [("gateway", LStr (name (entry m))); ("err", LErr)]
    "Supergateway spawn error" >>
  assign managed (set_healthy false).

Definition startGatewayProcess (managed : ref) : M unit :=
  let* m := deref managed in
  match type (entry m) with
  | http => ret tt
  | stdio =>
      let* proc := spawnSupergateway (entry m) in
      assign managed (set_process (Some proc)) >>
      listen proc managed
  end.

(** ** Health passes

    An iteration of the loop in [checkAllHealth] is suspended at
    [await healthCheck(url)] (l.183): the flag on record is read and the
    probe is sent before, the flag is written when the answer has arrived.
    Listeners and calls of the exports run in between. *)

(** What the first event of the request makes of the probe (l.75-86). *)
Definition probe_answer (ev : RequestEvent) : bool :=
  match ev with
  | response _ => true
  | request_error => false
  | request_timeout => false
  end.

(** l.180-183 up to the suspension: the address and the flag are read
    and the probe is sent.  [new URL] runs in the executor of the promise;
    when it throws, the promise is rejected, [await] throws in its turn
    and the call of [checkAllHealth] is over. *)
Definition checkHealth_send (w : Platform) (it : string * ref) : M (bool * URL.t) :=
  let '(name, managed) := it in
  let* m := deref managed in
  let address := getGatewayUrl (entry m) in
  let wasHealthy := healthy m in
  match URL_new w (ToString address) with
  | None => throw (TypeError "Invalid URL")
  | Some parsedUrl => ret (wasHealthy, parsedUrl)
  end.

(** l.183-194 from the answer [b] of the probe on; [wasHealthy] is the
    flag as it was read before the probe was sent. *)
Definition checkHealth_settle (it : string * ref) (wasHealthy b : bool) : M unit :=
  let '(name, managed) := it in
  assign managed (set_healthy b) >>
  let* m := deref managed in
  if healthy m && negb wasHealthy then
    assign managed (set_restartCount 0) >>
    logger info [("gateway", LStr name)] "MCP gateway became healthy"
  else if negb (healthy m) && wasHealthy then
    if truthy_bool (optional (entry m)) then
      logger warn [("gateway", LStr name)] "Optional MCP gateway became unhealthy"
    else
      logger error [("gateway", LStr name)] "MCP gateway became unhealthy"
  else ret tt.

(** An iteration whose probe is answered before anything else happens:
    [checkHealth_send] and [checkHealth_settle] with nothing in between
    (see [checkHealth_uninterrupted]). *)
Definition checkHealth (w : Platform) (it : string * ref) : M unit :=
  let '(name, managed) := it in
  let* m := deref managed in
  let address := getGatewayUrl (entry m) in
  let wasHealthy := healthy m in
  let* b := await (healthCheck w (ToString address)) in
  assign managed (set_healthy b) >>
  let* m := deref managed in
  if healthy m && negb wasHealthy then
    assign managed (set_restartCount 0) >>
    logger info [("gateway", LStr name)] "MCP gateway became healthy"
  else if negb (healthy m) && wasHealthy then
    if truthy_bool (optional (entry m)) then
      logger warn [("gateway", LStr name)] "Optional MCP gateway became unhealthy"
    else
      logger error [("gateway", LStr name)] "MCP gateway became unhealthy"
  else ret tt.

(** A pass during which no other event is delivered: every probe is
    answered before anything else happens.  What a pass with events in
    between does is [checkAllHealth_from] and the events of [step]. *)
Definition checkAllHealth (w : Platform) : M unit :=
  let* reg := gets managedGateways in
  for_of reg (checkHealth w).

(** ** Startup and shutdown *)

Definition startable (e : McpGatewayEntry) : bool :=
  match type e with
  | stdio => truthy_string (command e) && truthy_number (port e)
  | http => false
  end.

(** The body of the registration loop. *)
Definition register (e : McpGatewayEntry) : M unit :=
  let* managed := new_object {| entry := e; process := None; healthy := false;
                                restartCount := 0; restartTimer := None |} in
  modify (fun st => set_managedGateways (Map_set (name e) managed (managedGateways st)) st) >>
  match type e with
  | stdio =>
      if negb (truthy_string (command e)) || negb (truthy_number (port e)) then
        logger error [("gateway", LStr (name e))]
          "stdio gateway missing command or port, skipping"
      else startGatewayProcess managed
  | http => ret tt
  end.

(** [startMcpGateways] up to its first [await]: [true] when the call is
    suspended in the grace wait, [false] when it has returned. *)
Definition startMcpGateways_begin (file : ConfigFile) : M bool :=
  let* config := loadConfig file in
  match config with
  | None => ret false
  | Some config =>
      match gateways config with
      | None => throw (TypeError "Cannot read properties of undefined (reading 'length')")
      | Some gws =>
          if (length gws =? 0)%nat then ret false
          else
            for_of gws register >>
            modify (fun st => set_awaiting (awaiting st ++ [STARTUP_HEALTH_TIMEOUT]) st) >>
            ret true
      end
  end.

Definition summary (it : string * ref) : M unit :=
  let '(name, managed) := it in
  let* m := deref managed in
  if healthy m then
    logger info [("gateway", LStr name); ("url", string_value (getGatewayUrl (entry m)))]
      "MCP gateway started"
  else if truthy_bool (optional (entry m)) then
    logger warn [("gateway", LStr name)] "Optional MCP gateway not available"
  else
    logger error [("gateway", LStr name)] "Required MCP gateway failed to start".

(** [startMcpGateways] from the end of the grace wait on, with a health
    pass during which no other event is delivered. *)
Definition startMcpGateways_resume (w : Platform) : M unit :=
  modify (fun st => set_awaiting (tail (awaiting st)) st) >>
  checkAllHealth w >>
  let* reg := gets managedGateways in
  for_of reg summary >>
  let* t := setInterval HEALTH_CHECK_INTERVAL in
  modify (set_healthCheckTimer (Some t)).

(** A whole call of [startMcpGateways] during which no other event is
    delivered. *)
Definition startMcpGateways (w : Platform) (file : ConfigFile) : M unit :=
  let* suspended := startMcpGateways_begin file in
  if suspended : bool then startMcpGateways_resume w else ret tt.

(** *** Passes with events in between *)

Definition set_pass_index (i : nat) (ps : Pass) : Pass :=
  {| pass_name := pass_name ps; pass_managed := pass_managed ps;
     pass_wasHealthy := pass_wasHealthy ps; pass_request := pass_request ps;
     pass_index := i; pass_of_startup := pass_of_startup ps |}.

(** The call waits for the answer of its probe. *)
Definition suspend (ps : Pass) : M unit :=
  modify (fun st => set_passes (passes st ++ [ps]) st).

(** l.223-234: what [startMcpGateways] does once its health pass has
    returned. *)
Definition startMcpGateways_finish : M unit :=
  let* reg := gets managedGateways in
  for_of reg summary >>
  let* t := setInterval HEALTH_CHECK_INTERVAL in
  modify (set_healthCheckTimer (Some t)).

(** The loop of [checkAllHealth] with its iterator at [i] (l.180).  The
    iterator of a Map is live: it gives out what the registry holds at
    position [i] now.  When there is an entry its probe is sent and the
    call is suspended; at the end of the registry the call returns, and
    [startMcpGateways], if it is what awaits the call, goes on. *)
Definition checkAllHealth_from (w : Platform) (startup : bool) (i : nat) : M unit :=
  let* reg := gets managedGateways in
  match reg !! i with
  | Some it =>
      let* sent := checkHealth_send w it in
      suspend {| pass_name := it.1; pass_managed := it.2;
                 pass_wasHealthy := sent.1; pass_request := sent.2;
                 pass_index := S i; pass_of_startup := startup |}
  | None => if startup then startMcpGateways_finish else ret tt
  end.

(** The answer of the probe of a suspended call has arrived: the
    iteration is finished and the loop goes on. *)
Definition checkAllHealth_settle (w : Platform) (ps : Pass) : M unit :=
  checkHealth_settle (pass_name ps, pass_managed ps) (pass_wasHealthy ps)
    (probe_answer (http_get w (pass_request ps))) >>
  checkAllHealth_from w (pass_of_startup ps) (pass_index ps).

(** [managedGateways.clear()].  The entries of the Map are emptied in
    place and what is set afterwards goes behind them, so that an
    iterator suspended in the middle of the Map goes on with everything
    that is set after the clear: in the list, its index is back at 0. *)
Definition Map_clear : M unit :=
  modify (fun st =>
    set_passes (set_pass_index 0 <$> passes st) (set_managedGateways [] st)).

Definition stop_one (it : string * ref) : M unit :=
  let '(name, managed) := it in
  let* m := deref managed in
  match restartTimer m with
  | Some t => clearTimeout t
  | None => ret tt
  end >>
  match process m with
  | Some p =>
      logger info [("gateway", LStr name)] "Stopping MCP gateway" >>
      kill p
  | None => ret tt
  end.

Definition stopMcpGateways : M unit :=
  let* t := gets healthCheckTimer in
  match t with
  | Some i => clearInterval i >> modify (set_healthCheckTimer None)
  | None => ret tt
  end >>
  let* reg := gets managedGateways in
  for_of reg stop_one >>
  Map_clear.

(** ** The directory *)

Record Available : Type := {
  available_name : string;
  available_url : string;
}.

Fixpoint available_loop (objs : list ManagedGateway) (it : list (string * ref))
    (results : list Available) : Completion (list Available) :=
  match it with
  | [] => Normal results
  | (name, managed) :: rest =>
      match objs !! managed with
      | None => Throw BadRef
      | Some m =>
          if negb (healthy m) then available_loop objs rest results
          else
            match getGatewayUrl (entry m) with
            | None => Throw (TypeError "Cannot read properties of undefined (reading 'replace')")
            | Some address =>
                let hostUrl := String_replace "127.0.0.1" "host.docker.internal" address in
                available_loop objs rest
                  (results ++ [{| available_name := name; available_url := hostUrl |}])
            end
      end
  end.

Definition getAvailableGateways (st : State) : Completion (list Available) :=
  available_loop (store st) (managedGateways st) [].

(** ** Events

    Everything the module does happens in response to a call of one of its
    exports or to an event of a child process, a timer or a request.  A
    child emits 'close' once, after which it is gone; a timeout fires
    once; a probe is answered once, by the first event of its request
    ([http_get w] of the event's platform), and [k] is the place of its
    call among the suspended ones. *)

Inductive Event : Type :=
  | call_start (file : ConfigFile)
  | grace_elapsed (w : Platform)
  | interval_fires (i : handle) (w : Platform)
  | timeout_fires (t : handle)
  | child_close (p : handle) (code : option Z)
  | child_error (p : handle)
  | call_stop
  | probe_settles (k : nat) (w : Platform).

Fixpoint listener_of (p : handle) (cs : list (handle * ref)) : option ref :=
  match cs with
  | [] => None
  | (p', r) :: rest => if Nat.eqb p' p then Some r else listener_of p rest
  end.

Fixpoint pending (t : handle) (ts : list Timeout) : option ref :=
  match ts with
  | [] => None
  | x :: rest => if Nat.eqb (timeout_id x) t then Some (timeout_target x) else pending t rest
  end.

Definition remove_child (p : handle) (st : State) : State :=
  set_children (filter (fun c => c.1 <> p) (children st)) st.

Definition remove_timeout (t : handle) (st : State) : State :=
  set_timeouts (filter (fun x => timeout_id x <> t) (timeouts st)) st.

(** [step ev st] is the state after the event's handler has run, or [None]
    when the event cannot occur in [st]. *)
Definition step (ev : Event) (st : State) : option State :=
  match ev with
  | call_start file => Some (exec (startMcpGateways_begin file) st)
  | grace_elapsed w =>
      match awaiting st with
      | [] => None
      | _ :: _ =>
          Some (exec (modify (fun st => set_awaiting (tail (awaiting st)) st) >>
                      checkAllHealth_from w true 0) st)
      end
  | interval_fires i w =>
      if bool_decide (i ∈ (intervals st).*1)
      then Some (exec (checkAllHealth_from w false 0) st)
      else None
  | timeout_fires t =>
      match pending t (timeouts st) with
      | Some managed => Some (exec (startGatewayProcess managed) (remove_timeout t st))
      | None => None
      end
  | child_close p code =>
      match listener_of p (children st) with
      | Some managed => Some (exec (on_close managed code) (remove_child p st))
      | None => None
      end
  | child_error p =>
      match listener_of p (children st) with
      | Some managed => Some (exec (on_error managed) st)
      | None => None
      end
  | call_stop => Some (exec stopMcpGateways st)
  | probe_settles k w =>
      match passes st !! k with
      | Some ps =>
          Some (exec (checkAllHealth_settle w ps) (set_passes (delete k (passes st)) st))
      | None => None
      end
  end.

Fixpoint run (evs : list Event) (st : State) : option State :=
  match evs with
  | [] => Some st
  | ev :: rest =>
      match step ev st with
      | Some st' => run rest st'
      | None => None
      end
  end.

(** The events in which a health pass runs: it is started, or the answer
    of one of its probes arrives. *)
Definition pass_event (ev : Event) : Prop :=
  match ev with
  | grace_elapsed _ | interval_fires _ _ | probe_settles _ _ => True
  | _ => False
  end.


(** ** Counting what is outstanding for one object *)



(** Every listener and every pending restart belongs to an allocated
    object, and no object has more than one of them outstanding: a live
    child or a pending restart timer, never two. *)
Definition chains_ok (n : nat) (cs : list (handle * ref)) (ts : list Timeout) : Prop :=
  (forall c, c ∈ cs -> c.2 < n)
  /\ (forall x, x ∈ ts -> timeout_target x < n)
  /\ (forall r, length (filter (fun c => c.2 = r) cs)
                + length (filter (fun x => timeout_target x = r) ts) <= 1).

Definition one_restart_chain (st : State) : Prop :=
  chains_ok (length (store st)) (children st) (timeouts st).

(** [m] keeps the property [P] of states. *)
Definition preserves {A} (P : State -> Prop) (m : M A) : Prop :=
  forall st, P st -> P (exec m st).

(** Every reference in the registry points into the store. *)
Definition refs_valid (st : State) : Prop :=
  forall x, x ∈ managedGateways st -> x.2 < length (store st).

(** What a health pass may not touch in an object. *)
Definition same_process_track (m m' : ManagedGateway) : Prop :=
  entry m' = entry m /\ process m' = process m /\ restartTimer m' = restartTimer m.

(** Agreement of two states on everything but the objects and the log. *)
Definition outside_store_and_log_equal (st st' : State) : Prop :=
  managedGateways st' = managedGateways st
  /\ healthCheckTimer st' = healthCheckTimer st
  /\ children st' = children st
  /\ timeouts st' = timeouts st
  /\ intervals st' = intervals st
  /\ signalled st' = signalled st
  /\ awaiting st' = awaiting st
  /\ fresh st' = fresh st
  /\ passes st' = passes st.





(** [st] has the registry and the children of [st0], and objects with the
    process track of those of [st0]. *)
Definition same_tracks (st0 st : State) : Prop :=
  managedGateways st = managedGateways st0
  /\ children st = children st0
  /\ Forall2 same_process_track (store st0) (store st).

(** [r] is the position of the last declaration named [nm]. *)
Definition last_declared (gws : list McpGatewayEntry) (nm : string) (r : nat) : Prop :=
  exists e, gws !! r = Some e /\ name e = nm
            /\ forall j e', r < j -> gws !! j = Some e' -> name e' <> nm.

(** The state the registration loop builds from the initial one: object
    [r] belongs to declaration [r], started declarations hold the handle
    of a child that listens for them, children have distinct handles, and
    the registry maps each name to its last declaration. *)
Definition registered (gws : list McpGatewayEntry) (st : State) : Prop :=
  length (store st) = length gws
  /\ (forall r e, gws !! r = Some e ->
        exists m, store st !! r = Some m /\ entry m = e
                  /\ (startable e = true -> is_Some (process m)))
  /\ (forall r m p, store st !! r = Some m -> process m = Some p -> (p, r) ∈ children st)
  /\ (forall c, c ∈ children st -> c.1 < fresh st)
  /\ (forall p r r', (p, r) ∈ children st -> (p, r') ∈ children st -> r = r')
  /\ NoDup ((managedGateways st).*1)
  /\ (forall nm r, Map_get nm (managedGateways st) = Some r <-> last_declared gws nm r).

(** A configuration file that parses to the given declarations. *)
Definition config_of (gws : list McpGatewayEntry) : ConfigFile :=
  file_parsed (Some {| gateways := Some gws |}).

(** ** A laboratory: declarations and platforms for concrete runs *)

Module Lab.

Definition declare (n : string) (t : GatewayType) (c : option string)
    (p : option Z) (u : option string) (o : option bool) : McpGatewayEntry :=
  {| name := n; type := t; command := c; args := None; env := None;
     port := p; url := u; optional := o; description := None |}.

Definition echo : McpGatewayEntry :=
  declare "echo" stdio (Some "echo") (Some 9100%Z) None None.

(** A stdio declaration without a command, and one without a port. *)
Definition no_command : McpGatewayEntry :=
  declare "files" stdio None (Some 9100%Z) None None.

Definition no_port : McpGatewayEntry :=
  declare "files" stdio (Some "echo") None None None.

Definition db : McpGatewayEntry :=
  declare "db" http None None (Some "https://db.example:443") (Some true).

(** An http declaration of a server on the host's loopback interface. *)
Definition local_http : McpGatewayEntry :=
  declare "notes" http None None (Some "http://127.0.0.1:8080/mcp") None.

(** A second declaration under the name of [echo]. *)
Definition echo_again : McpGatewayEntry :=
  declare "echo" stdio (Some "cat") (Some 9200%Z) None None.

(** [new URL] on the addresses of these declarations.  Any other string
    is taken not to parse; among them is the address of [no_port],
    whose port component is the text [undefined]. *)
Definition parse (s : string) : option URL.t :=
  if String.eqb s "http://127.0.0.1:9100/sse" then
    Some {| URL.hostname := "127.0.0.1"; URL.port := "9100"; URL.pathname := "/sse" |}
  else if String.eqb s "http://127.0.0.1:9200/sse" then
    Some {| URL.hostname := "127.0.0.1"; URL.port := "9200"; URL.pathname := "/sse" |}
  else if String.eqb s "http://127.0.0.1:8080/mcp" then
    Some {| URL.hostname := "127.0.0.1"; URL.port := "8080"; URL.pathname := "/mcp" |}
  else if String.eqb s "https://db.example:443" then
    Some {| URL.hostname := "db.example"; URL.port := ""; URL.pathname := "/" |}
  else None.

(** Every request gets a response (a 405, say). *)
Definition all_respond : Platform :=
  {| URL_new := parse; http_get := fun _ => response 405 |}.

(** Nothing listens anywhere. *)
Definition nothing_listens : Platform :=
  {| URL_new := parse; http_get := fun _ => request_error |}.

(** [echo] declared alone, its helper running. *)
Definition echo_running : State :=
  exec (startMcpGateways_begin (config_of [echo])) initial.

Definition echo_object : ManagedGateway :=
  {| entry := echo; process := Some 0; healthy := false;
     restartCount := 0; restartTimer := None |}.

(** Every declaration of the laboratory that can answer, all answering. *)
Definition all_up : State :=
  exec (startMcpGateways all_respond (config_of [echo; db; local_http])) initial.


(** [echo] is started and found healthy by the first pass; the polling
    interval fires, and the helper exits while the probe of that pass is
    in flight. *)
Definition exit_during_probe : list Event :=
  [call_start (config_of [echo]); grace_elapsed all_respond; probe_settles 0 all_respond;
   interval_fires 1 all_respond; child_close 0 (Some 1%Z)].

(** [echo] after one exit and restart, not yet probed. *)
Definition echo_restarted : State :=
  exec (startGatewayProcess 0) (exec (on_close 0 (Some 1%Z)) echo_running).

(** [echo] after one exit and restart, the probe of a periodic pass in
    flight. *)
Definition echo_probed : State :=
  exec (checkAllHealth_from all_respond false 0) echo_restarted.

End Lab.

(** ** The helper's invocation

    What [spawnSupergateway] hands to [spawn]: the resolved helper, its
    argument list and its environment, as functions of the declaration and
    of the host the module runs on. *)

Record Host : Type := {
  which : string -> option string;   (* the output of [execSync(`which ${cmd}`)],
                                        [None] when it throws *)
  existsSync : string -> bool;
  process_env : gmap string string;
}.

Definition bytes (l : list nat) : string :=
  foldr (fun n s => String (Ascii.ascii_of_nat n) s) EmptyString l.

(** The code points that [String.prototype.trim] removes (white space and
    line terminators), in UTF-8. *)
Definition white_space : list string :=
  [bytes [9]; bytes [10]; bytes [11]; bytes [12]; bytes [13]; bytes [32];
   bytes [194; 160]; bytes [225; 154; 128];
   bytes [226; 128; 128]; bytes [226; 128; 129]; bytes [226; 128; 130];
   bytes [226; 128; 131]; bytes [226; 128; 132]; bytes [226; 128; 133];
   bytes [226; 128; 134]; bytes [226; 128; 135]; bytes [226; 128; 136];
   bytes [226; 128; 137]; bytes [226; 128; 138];
   bytes [226; 128; 168]; bytes [226; 128; 169]; bytes [226; 128; 175];
   bytes [226; 129; 159]; bytes [227; 128; 128]; bytes [239; 187; 191]].

Fixpoint strip_any (pats : list string) (s : string) : option string :=
  match pats with
  | [] => None
  | pat :: rest =>
      match strip_prefix pat s with
      | Some s' => Some s'
      | None => strip_any rest s
      end
  end.

Fixpoint strip_all (pats : list string) (fuel : nat) (s : string) : string :=
  match fuel with
  | O => s
  | S fuel' =>
      match strip_any pats s with
      | Some s' => strip_all pats fuel' s'
      | None => s
      end
  end.

Definition String_trimStart (s : string) : string :=
  strip_all white_space (String.length s) s.

Definition String_trimEnd (s : string) : string :=
  String.rev (strip_all (map String.rev white_space) (String.length s) (String.rev s)).

Definition String_trim (s : string) : string :=
  String_trimEnd (String_trimStart s).

Definition candidates (cmd : string) : list string :=
  ["/usr/local/bin/" +:+ cmd;
   "/usr/local/opt/node@22/bin/" +:+ cmd;
   "/opt/homebrew/bin/" +:+ cmd].

Fixpoint first_existing (h : Host) (ps : list string) : option string :=
  match ps with
  | [] => None
  | p :: rest => if existsSync h p then Some p else first_existing h rest
  end.

Definition resolveCommand (h : Host) (cmd : option string) : option string :=
  match which h (ToString cmd) with
  | Some out => Some (String_trim out)
  | None =>
      match first_existing h (candidates (ToString cmd)) with
      | Some p => Some p
      | None => cmd
      end
  end.

(** [a.join(sep)]: an [undefined] element contributes the empty string. *)
Definition Array_join (sep : string) (a : list (option string)) : string :=
  String.concat sep (map (fun v : option string => match v with
                                                   | Some x => x
                                                   | None => EmptyString
                                                   end) a).

Definition stdioCmd (h : Host) (e : McpGatewayEntry) : string :=
  Array_join " " (resolveCommand h (command e) :: map Some (default [] (args e))).

Definition supergateway_args (h : Host) (e : McpGatewayEntry) : list string :=
  ["--stdio"; stdioCmd h e; "--port"; port_text (port e)].

(** [a.indexOf(v)], [None] for -1. *)
Fixpoint Array_indexOf (v : string) (a : list string) : option nat :=
  match a with
  | [] => None
  | x :: rest => if String.eqb x v then Some 0 else S <$> Array_indexOf v rest
  end.

Fixpoint filter_from {A} (i : nat) (f : A -> nat -> bool) (l : list A) : list A :=
  match l with
  | [] => []
  | x :: rest =>
      if f x i then x :: filter_from (S i) f rest else filter_from (S i) f rest
  end.

(** [a.filter((v, i, a) => f(v, i, a))] *)
Definition Array_filter {A} (f : A -> nat -> list A -> bool) (a : list A) : list A :=
  filter_from 0 (fun v i => f v i a) a.

(** [s.split(sep)] for a one-character separator. *)
Fixpoint String_split (sep : Ascii.ascii) (s : string) : list string :=
  match s with
  | EmptyString => [EmptyString]
  | String c s' =>
      if Ascii.eqb c sep then EmptyString :: String_split sep s'
      else match String_split sep s' with
           | x :: xs => String c x :: xs
           | [] => [String c EmptyString]
           end
  end.

Definition extraPaths : list string :=
  ["/usr/local/bin"; "/usr/local/opt/node@22/bin"; "/opt/homebrew/bin"].

(** [env.PATH || '/usr/bin:/bin'] *)
Definition currentPath (current : option string) : string :=
  match current with
  | Some EmptyString => "/usr/bin:/bin"
  | Some p => p
  | None => "/usr/bin:/bin"
  end.

(** The components of the PATH the helper gets, from [env.PATH]. *)
Definition PATH_components (current : option string) : list string :=
  Array_filter (fun v i a => bool_decide (Array_indexOf v a = Some i))
    (extraPaths ++ String_split ":"%char (currentPath current)).

Definition augmented_PATH (current : option string) : string :=
  String.concat ":" (PATH_components current).



(** The ['data'] listeners on the helper's stdout and stderr. *)
Definition on_data (e : McpGatewayEntry) (data : string) : M unit :=
  let line := String_trim data in
  if String.eqb line EmptyString then ret tt
  else logger debug [("gateway", LStr (name e))] line.

(** ** Scenarios and reference definitions *)

(** The polling of [st] is that of [st0]: the same intervals are active
    and the same handle is on record. *)
Definition polling_as_in (st0 st : State) : Prop :=
  intervals st = intervals st0 /\ healthCheckTimer st = healthCheckTimer st0.

(** The strings that are put together from the strings of [pats]; with
    [white_space], the strings of white space only. *)
Inductive made_of (pats : list string) : string -> Prop :=
  | made_of_nil : made_of pats EmptyString
  | made_of_cons (pat s : string) :
      pat ∈ pats -> made_of pats s -> made_of pats (pat +:+ s).

Definition spaces : string -> Prop := made_of white_space.

(** A chunk of spaces, tabs and line breaks. *)
Fixpoint blank (s : string) : bool :=
  match s with
  | EmptyString => true
  | String c s' =>
      (Nat.eqb (nat_of_ascii c) 9 || Nat.eqb (nat_of_ascii c) 10
       || Nat.eqb (nat_of_ascii c) 11 || Nat.eqb (nat_of_ascii c) 12
       || Nat.eqb (nat_of_ascii c) 13 || Nat.eqb (nat_of_ascii c) 32)
      && blank s'
  end.

(** A state with the [optional] flags and the log left out. *)
Definition without_optional (m : ManagedGateway) : ManagedGateway :=
  {| entry := {| name := name (entry m); type := type (entry m);
                 command := command (entry m); args := args (entry m);
                 env := env (entry m); port := port (entry m);
                 url := url (entry m); optional := None;
                 description := description (entry m) |};
     process := process m; healthy := healthy m;
     restartCount := restartCount m; restartTimer := restartTimer m |}.

Definition apart_from_optional (st : State) : State :=
  set_log [] (set_store (without_optional <$> store st) st).

(** The handle of every pending timeout has been given out already. *)
Definition handles_fresh (st : State) : Prop :=
  forall x, x ∈ timeouts st -> timeout_id x < fresh st.

(** The registry has one entry per name. *)
Definition names_distinct (st : State) : Prop :=
  NoDup ((managedGateways st).*1).

(** The directory entries that do not belong to the object [r]. *)
Definition not_of (r : ref) (st : State) (l : list Available) : list Available :=
  filter (fun a => Map_get (available_name a) (managedGateways st) <> Some r) l.


(** The elements of [l] in order, without those in [seen] and without
    repetitions: what is new at its first occurrence. *)
Fixpoint keep_new (seen l : list string) : list string :=
  match l with
  | [] => []
  | x :: rest =>
      if bool_decide (x ∈ seen) then keep_new seen rest
      else x :: keep_new (seen ++ [x]) rest
  end.

(** The helper of [managed] exits and its restart timer fires, [k] times
    in a row. *)
Fixpoint crash_rounds (k : nat) (managed : ref) (code : option Z) : M unit :=
  match k with
  | O => ret tt
  | S k' =>
      on_close managed code >>
      startGatewayProcess managed >>
      crash_rounds k' managed code
  end.

(** ** A rig: a host and declarations for concrete launches *)

Module Rig.

Definition host : Host :=
  {| which := fun cmd => if String.eqb cmd "npx" then Some ("/usr/bin/npx" +:+ bytes [10])
                         else None;
     existsSync := fun p => String.eqb p "/opt/homebrew/bin/supergateway";
     process_env := <["PATH" := "/usr/bin:/opt/homebrew/bin"]> (<["HOME" := "/root"]> ∅) |}.

Definition fetch (a : list string) : McpGatewayEntry :=
  {| name := "fetch"; type := stdio; command := Some "npx"; args := Some a;
     env := Some [("API_KEY", "k"); ("PATH", "/only")]; port := Some 9300%Z;
     url := None; optional := None; description := None |}.

(** [Lab.echo], a declaration without a port and [Lab.db], declared in
    this order and registered. *)
Definition mixed : State :=
  exec (startMcpGateways_begin (config_of [Lab.echo; Lab.no_port; Lab.db])) initial.

End Rig.

(** * Theorems *)

Lemma pow2_ge_64 (n : N) : (6 <= n)%N -> (64 <= 2 ^ Z.of_N n)%Z.
Proof.
  intros Hn.
  change 64%Z with (2 ^ 6)%Z.
  apply Z.pow_le_mono_r; lia.
Qed.

(** C2: for every natural restart count [n] the delay is
    [min(1000 * 2^n, 60000)] milliseconds; it is 1000 at [n = 0] and 60000
    at [n = 6] and at [n = 100]. *)
Theorem getRestartDelay_spec :
  (forall n : N, getRestartDelay n = Fin (Z.min (1000 * 2 ^ Z.of_N n) 60000))
  /\ getRestartDelay 0 = Fin 1000
  /\ getRestartDelay 6 = Fin 60000
  /\ getRestartDelay 100 = Fin 60000.
Proof.
  split; [|repeat split; vm_compute; reflexivity].
  intros n. unfold getRestartDelay, Math_pow2, js_mul, MAX_RESTART_DELAY.
  destruct (N.leb_spec n 1023) as [Hle|Hgt].
  - destruct (Z.ltb_spec (1000 * 2 ^ Z.of_N n) (2 ^ 1024)); simpl; [reflexivity|].
    f_equal. rewrite Z.min_r; [reflexivity|].
    assert (2 ^ 6 <= 2 ^ 1024)%Z by (apply Z.pow_le_mono_r; lia).
    lia.
  - simpl. f_equal. rewrite Z.min_r; [reflexivity|].
    pose proof (pow2_ge_64 n ltac:(lia)). lia.
Qed.

(** ** Unfolding computations *)

Ltac run_m :=
  unfold exec, outcome, bind, ret, throw, gets, modify, await, logger, assign,
    deref, new_handle, new_object, setTimeout, clearTimeout, setInterval,
    clearInterval, kill, listen, spawnSupergateway in *;
  simpl in *.


Lemma alter_known (f : ManagedGateway -> ManagedGateway) (l : list ManagedGateway)
    (r : ref) (m : ManagedGateway) :
  l !! r = Some m -> alter f r l = <[r := f m]> l.
Proof.
  intros H. rewrite list_insert_alter.
  apply list_alter_ext; [|reflexivity].
  intros x Hx. congruence.
Qed.

(** ** The two listeners *)

Lemma on_error_effect (st : State) (managed : ref) (m : ManagedGateway) :
  store st !! managed = Some m ->
  on_error managed st =
    (Normal tt,
     set_store (alter (set_healthy false) managed (store st))
       (set_log (log st ++ [{| level := error;
                               ctx := [("gateway", LStr (name (entry m))); ("err", LErr)];
                               msg := "Supergateway spawn error" |}]) st)).
Proof.
  intros H. unfold on_error. run_m. rewrite H. reflexivity.
Qed.

Lemma on_close_effect (st : State) (managed : ref) (code : option Z) (m : ManagedGateway) :
  store st !! managed = Some m ->
  exists st',
    on_close managed code st = (Normal tt, st')
    /\ store st' = <[managed := {| entry := entry m; process := None; healthy := false;
                                   restartCount := js_incr (restartCount m);
                                   restartTimer := Some (fresh st) |}]> (store st)
    /\ timeouts st' = timeouts st ++
         [{| timeout_id := fresh st; timeout_target := managed;
             timeout_delay := getRestartDelay (restartCount m) |}]
    /\ children st' = children st
    /\ managedGateways st' = managedGateways st
    /\ fresh st' = S (fresh st).
Proof.
  intros H. unfold on_close. run_m. rewrite H. simpl.
  repeat (rewrite list_lookup_alter_eq, ?H; simpl).
  eexists. split; [reflexivity|]. simpl.
  repeat split.
  rewrite !list_alter_alter_eq.
  rewrite (alter_known _ _ _ m H). reflexivity.
Qed.

Lemma dangling_listener (st : State) (managed : ref) (code : option Z) :
  store st !! managed = None ->
  on_close managed code st = (Throw BadRef, st)
  /\ on_error managed st = (Throw BadRef, st)
  /\ startGatewayProcess managed st = (Throw BadRef, st).
Proof.
  intros H. unfold on_close, on_error, startGatewayProcess. run_m.
  rewrite H. auto.
Qed.

Lemma startGatewayProcess_effect (st : State) (managed : ref) (m : ManagedGateway) :
  store st !! managed = Some m ->
  exists st',
    startGatewayProcess managed st = (Normal tt, st')
    /\ store st' = (match type (entry m) with
                    | stdio => <[managed := set_process (Some (fresh st)) m]> (store st)
                    | http => store st
                    end)
    /\ children st' = (match type (entry m) with
                       | stdio => children st ++ [(fresh st, managed)]
                       | http => children st
                       end)
    /\ fresh st' = (match type (entry m) with
                    | stdio => S (fresh st)
                    | http => fresh st
                    end)
    /\ timeouts st' = timeouts st
    /\ managedGateways st' = managedGateways st.
Proof.
  intros H. unfold startGatewayProcess. run_m. rewrite H.
  destruct (type (entry m)); simpl.
  - eexists. split; [reflexivity|]. simpl. repeat split.
    apply alter_known. exact H.
  - eexists. split; [reflexivity|]. repeat split.
Qed.

Lemma listener_of_elem (p : handle) (r : ref) (cs : list (handle * ref)) :
  listener_of p cs = Some r -> (p, r) ∈ cs.
Proof.
  induction cs as [|[p' r'] cs IH]; simpl; [discriminate|].
  destruct (Nat.eqb_spec p' p) as [->|Hne].
  - intros [= ->]. left.
  - intros H. right. auto.
Qed.



(** ** Loops *)

Lemma for_of_preserves {A} (P : State -> Prop) (body : A -> M unit) (xs : list A) :
  (forall x st, P st -> P (exec (body x) st)) ->
  forall st, P st -> P (exec (for_of xs body) st).
Proof.
  intros Hbody. induction xs as [|x xs IH]; intros st HP; [exact HP|].
  specialize (Hbody x st HP). unfold exec in *. simpl. unfold bind.
  destruct (body x st) as [[[]|e] st1]; simpl in *; auto.
Qed.

Lemma for_of_snoc {A} (body : A -> M unit) (xs : list A) (x : A) (st : State) :
  outcome (for_of xs body) st = Normal tt ->
  for_of (xs ++ [x]) body st = body x (exec (for_of xs body) st).
Proof.
  revert st. induction xs as [|y xs IH]; intros st; unfold outcome, exec in *; simpl.
  - intros _. unfold bind, ret. destruct (body x st) as [[[]|e] st1]; reflexivity.
  - unfold bind. destruct (body y st) as [[[]|e] st1]; simpl; [|discriminate].
    apply IH.
Qed.

(** ** One probe *)

Lemma outside_equal_refl (st : State) : outside_store_and_log_equal st st.
Proof. repeat split. Qed.

Lemma checkHealth_effect (w : Platform) (nm : string) (r : ref) (st : State) :
  outside_store_and_log_equal st (exec (checkHealth w (nm, r)) st)
  /\ (store (exec (checkHealth w (nm, r)) st) = store st
      \/ exists m b,
           store st !! r = Some m
           /\ healthCheck w (ToString (getGatewayUrl (entry m))) = Normal b
           /\ store (exec (checkHealth w (nm, r)) st) =
                <[r := if b && negb (healthy m)
                       then set_restartCount 0 (set_healthy b m)
                       else set_healthy b m]> (store st)).
Proof.
  unfold checkHealth. run_m.
  destruct (store st !! r) as [m|] eqn:Hm; simpl;
    [|split; [apply outside_equal_refl|left; reflexivity]].
  destruct (healthCheck w (ToString (getGatewayUrl (entry m)))) as [b|e] eqn:Hb; simpl;
    [|split; [apply outside_equal_refl|left; reflexivity]].
  rewrite list_lookup_alter_eq, Hm. simpl.
  destruct b, (healthy m) eqn:Hh; simpl.
  - split; [repeat split|]. right. exists m, true. rewrite Hh. simpl.
    repeat split; auto using alter_known.
  - split; [repeat split|]. right. exists m, true. rewrite Hh. simpl.
    repeat split; auto.
    rewrite list_alter_alter_eq, (alter_known _ _ _ m Hm). reflexivity.
  - split; [destruct (truthy_bool (optional (entry m))); repeat split|].
    right. exists m, false. simpl.
    destruct (truthy_bool (optional (entry m))); unfold modify; simpl;
      repeat split; auto using alter_known.
  - split; [repeat split|]. right. exists m, false. simpl.
    repeat split; auto using alter_known.
Qed.

Lemma same_process_track_insert (l0 l : list ManagedGateway) (r : ref) (m x : ManagedGateway) :
  Forall2 same_process_track l0 l ->
  l !! r = Some m ->
  same_process_track m x ->
  Forall2 same_process_track l0 (<[r := x]> l).
Proof.
  intros HF Hm (He & Hp & Ht).
  rewrite list_insert_alter. apply Forall2_alter_r; [exact HF|].
  intros a b _ Hb (He' & Hp' & Ht').
  assert (b = m) as -> by congruence.
  unfold same_process_track. repeat split; congruence.
Qed.

Lemma same_process_track_refl (l : list ManagedGateway) :
  Forall2 same_process_track l l.
Proof.
  apply Forall_Forall2_diag, Forall_forall. intros m _. repeat split.
Qed.

Lemma outside_equal_trans (st0 st1 st2 : State) :
  outside_store_and_log_equal st0 st1 ->
  outside_store_and_log_equal st1 st2 ->
  outside_store_and_log_equal st0 st2.
Proof.
  unfold outside_store_and_log_equal. intuition congruence.
Qed.

Lemma checkAllHealth_frame (w : Platform) (st : State) :
  outside_store_and_log_equal st (exec (checkAllHealth w) st)
  /\ Forall2 same_process_track (store st) (store (exec (checkAllHealth w) st)).
Proof.
  unfold checkAllHealth, exec, bind, gets. simpl.
  change (snd (for_of (managedGateways st) (checkHealth w) st))
    with (exec (for_of (managedGateways st) (checkHealth w)) st).
  apply (for_of_preserves
           (fun st' => outside_store_and_log_equal st st'
                       /\ Forall2 same_process_track (store st) (store st'))).
  - intros [nm r] st1 [Hout Htrack].
    destruct (checkHealth_effect w nm r st1) as [Hout' [Hsame|(m & b & Hm & _ & Hst)]].
    + split; [eapply outside_equal_trans; eassumption|].
      rewrite Hsame. exact Htrack.
    + split; [eapply outside_equal_trans; eassumption|].
      rewrite Hst. apply (same_process_track_insert _ _ _ m); auto.
      destruct (b && negb (healthy m)); repeat split.
  - split; [apply outside_equal_refl|apply same_process_track_refl].
Qed.

(** C9: a health pass changes nothing but healthy flags, restart counts and
    the log.  Whatever the probes answer (a Healthy to Unhealthy
    transition included), the children and their listeners, the pending
    restart timers, the registry and every handle are as before, and each
    object keeps its declaration, its process handle and its restart
    timer: the pass starts and schedules nothing. *)
Theorem health_pass_leaves_process_track (w : Platform) (st : State) :
  let st' := exec (checkAllHealth w) st in
  children st' = children st
  /\ timeouts st' = timeouts st
  /\ outside_store_and_log_equal st st'
  /\ Forall2 same_process_track (store st) (store st').
Proof.
  destruct (checkAllHealth_frame w st) as [Hout Htrack].
  simpl. repeat split; try apply Hout. exact Htrack.
Qed.

(** C8, where the code departs from it: [wasHealthy] is read before the
    probe is sent and the reset looks at it when the answer arrives.  When the
    helper of a healthy gateway exits while a probe of the gateway is in
    flight, the 'close' listener clears the flag and counts a restart;
    the answer of the probe, when it arrives, takes the flag from false
    to true, and since [wasHealthy] is true the restart count stays at 1
    and nothing is logged.  The gateway is
    published with its helper gone, and the next exit of the helper is
    followed by a restart after 2000 ms, not 1000. *)
Theorem exit_during_probe_skips_reset :
  exists st st' st'',
    run Lab.exit_during_probe initial = Some st
    /\ (pass_wasHealthy <$> passes st !! 0) = Some true
    /\ (healthy <$> store st !! 0) = Some false
    /\ (restartCount <$> store st !! 0) = Some 1%N
    /\ step (probe_settles 0 Lab.all_respond) st = Some st'
    /\ (healthy <$> store st' !! 0) = Some true
    /\ (restartCount <$> store st' !! 0) = Some 1%N
    /\ (process <$> store st' !! 0) = Some None
    /\ log st' = log st
    /\ getAvailableGateways st'
       = Normal [{| available_name := "echo";
                    available_url := "http://host.docker.internal:9100/sse" |}]
    /\ run [timeout_fires 2; child_close 3 (Some 1%Z)] st' = Some st''
    /\ (timeout_delay <$> last (timeouts st'')) = Some (Fin 2000).
Proof.
  eexists. eexists. eexists.
  split; [vm_compute; reflexivity|].
  split; [reflexivity|]. split; [reflexivity|]. split; [reflexivity|].
  split; [vm_compute; reflexivity|].
  split; [reflexivity|]. split; [reflexivity|]. split; [reflexivity|].
  split; [reflexivity|]. split; [vm_compute; reflexivity|].
  split; [vm_compute; reflexivity|]. reflexivity.
Qed.

(** ** Restart chains *)

Section Counting.
Context {A : Type} (P Q : A -> Prop) `{!forall x, Decision (P x)} `{!forall x, Decision (Q x)}.

Lemma count_filter_le (l : list A) :
  length (filter P (filter Q l)) <= length (filter P l).
Proof.
  induction l as [|x l IH]; [reflexivity|].
  rewrite (filter_cons Q). destruct (decide (Q x)).
  - rewrite !filter_cons. destruct (decide (P x)); simpl; lia.
  - rewrite (filter_cons P). destruct (decide (P x)); simpl; lia.
Qed.

Lemma count_filter_lt (l : list A) (x : A) :
  x ∈ l -> P x -> ~ Q x ->
  length (filter P (filter Q l)) < length (filter P l).
Proof.
  intros Hin. induction Hin as [x l|x y l Hin IH]; intros HP HQ.
  - rewrite (filter_cons Q). destruct (decide (Q x)); [contradiction|].
    rewrite (filter_cons P). destruct (decide (P x)); [|contradiction].
    pose proof (count_filter_le l). simpl. lia.
  - specialize (IH HP HQ).
    rewrite (filter_cons Q). destruct (decide (Q y)).
    + rewrite !filter_cons. destruct (decide (P y)); simpl; lia.
    + rewrite (filter_cons P). destruct (decide (P y)); simpl; lia.
Qed.

Lemma count_snoc (l : list A) (x : A) :
  length (filter P (l ++ [x])) = length (filter P l) + (if decide (P x) then 1 else 0).
Proof.
  rewrite filter_app, length_app, filter_cons, filter_nil.
  destruct (decide (P x)); reflexivity.
Qed.

Lemma count_zero (l : list A) :
  (forall x, x ∈ l -> ~ P x) -> length (filter P l) = 0.
Proof.
  intros Hnone. induction l as [|x l IH]; [reflexivity|].
  rewrite filter_cons. destruct (decide (P x)) as [HP|_].
  - exfalso. apply (Hnone x); [left|exact HP].
  - apply IH. intros y Hy. apply Hnone. right. exact Hy.
Qed.
End Counting.

Lemma pending_elem (t : handle) (r : ref) (ts : list Timeout) :
  pending t ts = Some r -> exists x, x ∈ ts /\ timeout_id x = t /\ timeout_target x = r.
Proof.
  induction ts as [|x ts IH]; simpl; [discriminate|].
  destruct (Nat.eqb_spec (timeout_id x) t) as [Heq|Hne].
  - intros [= <-]. exists x. split; [left|auto].
  - intros H. destruct (IH H) as (y & Hy & Hid & Htg). exists y. split; [right|]; auto.
Qed.

Lemma chains_ok_initial : chains_ok 0 [] [].
Proof.
  split; [|split].
  - intros c Hc. inversion Hc.
  - intros x Hx. inversion Hx.
  - intros r. simpl. lia.
Qed.

Lemma chains_ok_fewer_timeouts (n : nat) (cs : list (handle * ref)) (ts : list Timeout)
    (Q : Timeout -> Prop) `{!forall x, Decision (Q x)} :
  chains_ok n cs ts -> chains_ok n cs (filter Q ts).
Proof.
  intros (Hc & Ht & Hone). repeat split; [exact Hc| |].
  - intros x Hx. apply list_elem_of_filter in Hx as [_ Hx]. auto.
  - intros r. specialize (Hone r).
    pose proof (count_filter_le (fun x => timeout_target x = r) Q ts). lia.
Qed.

Lemma chains_ok_fewer_children (n : nat) (cs : list (handle * ref)) (ts : list Timeout)
    (Q : handle * ref -> Prop) `{!forall x, Decision (Q x)} :
  chains_ok n cs ts -> chains_ok n (filter Q cs) ts.
Proof.
  intros (Hc & Ht & Hone). repeat split; [|exact Ht|].
  - intros x Hx. apply list_elem_of_filter in Hx as [_ Hx]. auto.
  - intros r. specialize (Hone r).
    pose proof (count_filter_le (fun c : handle * ref => c.2 = r) Q cs). lia.
Qed.

(** A child closes and its restart is scheduled. *)
Lemma chains_ok_close (n : nat) (cs : list (handle * ref)) (ts : list Timeout)
    (p : handle) (r : ref) (x : Timeout) :
  listener_of p cs = Some r ->
  timeout_target x = r ->
  chains_ok n cs ts ->
  chains_ok n (filter (fun c => c.1 <> p) cs) (ts ++ [x]).
Proof.
  intros Hl Hx (Hc & Ht & Hone).
  apply listener_of_elem in Hl.
  repeat split.
  - intros c Hin. apply list_elem_of_filter in Hin as [_ Hin]. auto.
  - intros y Hy. apply elem_of_app in Hy as [Hy|Hy]; [auto|].
    apply list_elem_of_singleton in Hy as ->. rewrite Hx. apply (Hc _ Hl).
  - intros r'. specialize (Hone r'). rewrite count_snoc.
    destruct (decide (timeout_target x = r')) as [Heq|Hne].
    + assert (r' = r) as -> by congruence.
      pose proof (count_filter_lt (fun c : handle * ref => c.2 = r)
                    (fun c => c.1 <> p) cs (p, r) Hl eq_refl) as Hlt.
      simpl in Hlt. specialize (Hlt ltac:(auto)). lia.
    + pose proof (count_filter_le (fun c : handle * ref => c.2 = r')
                    (fun c => c.1 <> p) cs). lia.
Qed.

(** A restart timer fires and a child is started. *)
Lemma chains_ok_fire (n : nat) (cs : list (handle * ref)) (ts : list Timeout)
    (t h : handle) (r : ref) :
  pending t ts = Some r ->
  chains_ok n cs ts ->
  chains_ok n (cs ++ [(h, r)]) (filter (fun x => timeout_id x <> t) ts).
Proof.
  intros Hp (Hc & Ht & Hone).
  apply pending_elem in Hp as (x & Hin & Hid & Htg).
  repeat split.
  - intros c Hc'. apply elem_of_app in Hc' as [Hc'|Hc']; [auto|].
    apply list_elem_of_singleton in Hc' as ->. simpl. rewrite <- Htg. auto.
  - intros y Hy. apply list_elem_of_filter in Hy as [_ Hy]. auto.
  - intros r'. specialize (Hone r'). rewrite count_snoc. simpl.
    destruct (decide (r = r')) as [<-|Hne].
    + pose proof (count_filter_lt (fun y => timeout_target y = r)
                    (fun y => timeout_id y <> t) ts x Hin Htg) as Hlt.
      specialize (Hlt ltac:(auto)). lia.
    + pose proof (count_filter_le (fun y => timeout_target y = r')
                    (fun y => timeout_id y <> t) ts). lia.
Qed.

(** An object is allocated, and possibly a child started for it. *)
Lemma chains_ok_alloc (n : nat) (cs : list (handle * ref)) (ts : list Timeout)
    (h : handle) (spawned : bool) :
  chains_ok n cs ts ->
  chains_ok (S n) (cs ++ (if spawned then [(h, n)] else [])) ts.
Proof.
  intros (Hc & Ht & Hone). repeat split.
  - intros c Hin. apply elem_of_app in Hin as [Hin|Hin].
    + specialize (Hc c Hin). lia.
    + destruct spawned; [|inversion Hin].
      apply list_elem_of_singleton in Hin as ->. simpl. lia.
  - intros x Hx. specialize (Ht x Hx). lia.
  - intros r. specialize (Hone r).
    destruct spawned; [|rewrite app_nil_r; exact Hone].
    rewrite count_snoc. simpl.
    destruct (decide (n = r)) as [<-|Hne]; [|lia].
    rewrite (count_zero (fun c : handle * ref => c.2 = n) cs).
    + rewrite (count_zero (fun x => timeout_target x = n) ts); [lia|].
      intros x Hx Heq. specialize (Ht x Hx). lia.
    + intros c Hin Heq. specialize (Hc c Hin). lia.
Qed.

(** ** The registry as a Map *)

Lemma Map_get_set_eq {V} (k : string) (v : V) (m : list (string * V)) :
  Map_get k (Map_set k v m) = Some v.
Proof.
  induction m as [|[k' v'] m IH]; simpl.
  - rewrite String.eqb_refl. reflexivity.
  - destruct (String.eqb k' k) eqn:Hk; simpl.
    + rewrite String.eqb_refl. reflexivity.
    + rewrite Hk. exact IH.
Qed.

Lemma Map_get_set_ne {V} (k k' : string) (v : V) (m : list (string * V)) :
  k <> k' -> Map_get k' (Map_set k v m) = Map_get k' m.
Proof.
  intros Hne. induction m as [|[k0 v0] m IH]; simpl.
  - destruct (String.eqb_spec k k'); [contradiction|reflexivity].
  - destruct (String.eqb_spec k0 k) as [->|Hk0]; simpl.
    + destruct (String.eqb_spec k k'); [contradiction|reflexivity].
    + destruct (String.eqb_spec k0 k'); [reflexivity|exact IH].
Qed.

Lemma Map_set_keys {V} (k : string) (v : V) (m : list (string * V)) :
  ((Map_set k v m).*1 = m.*1)
  \/ ((k ∉ m.*1) /\ ((Map_set k v m).*1 = (m.*1) ++ [k])).
Proof.
  induction m as [|[k' v'] m IH]; cbn [Map_set].
  - right. split; [apply not_elem_of_nil|reflexivity].
  - destruct (String.eqb_spec k' k) as [->|Hk]; [left; reflexivity|].
    rewrite !fmap_cons. cbn [fst].
    destruct IH as [->|[Hnot ->]]; [left; reflexivity|].
    right. split; [|reflexivity].
    apply not_elem_of_cons. split; [congruence|exact Hnot].
Qed.

Lemma Map_set_NoDup {V} (k : string) (v : V) (m : list (string * V)) :
  NoDup (m.*1) -> NoDup ((Map_set k v m).*1).
Proof.
  intros Hnd. destruct (Map_set_keys k v m) as [->|[Hnot ->]]; [exact Hnd|].
  apply NoDup_app. split; [exact Hnd|]. split.
  - intros x Hx Hx'. apply list_elem_of_singleton in Hx' as ->. contradiction.
  - apply NoDup_singleton.
Qed.

Lemma Map_get_elem {V} (k : string) (v : V) (m : list (string * V)) :
  Map_get k m = Some v -> (k, v) ∈ m.
Proof.
  induction m as [|[k' v'] m IH]; simpl; [discriminate|].
  destruct (String.eqb_spec k' k) as [->|Hk].
  - intros [= ->]. left.
  - intros H. right. auto.
Qed.

Lemma Map_elem_get {V} (k : string) (v : V) (m : list (string * V)) :
  NoDup (m.*1) -> (k, v) ∈ m -> Map_get k m = Some v.
Proof.
  induction m as [|[k' v'] m IH]; cbn [Map_get]; intros Hnd Hin; [inversion Hin|].
  rewrite fmap_cons in Hnd. cbn [fst] in Hnd.
  apply NoDup_cons in Hnd as [Hnot Hnd].
  apply elem_of_cons in Hin as [[= -> ->]|Hin].
  - rewrite String.eqb_refl. reflexivity.
  - destruct (String.eqb_spec k' k) as [->|Hk]; [|auto].
    exfalso. apply Hnot. apply list_elem_of_fmap. exists (k, v). split; [reflexivity|exact Hin].
Qed.

(** ** Registration *)

Lemma alter_last (f : ManagedGateway -> ManagedGateway) (l : list ManagedGateway)
    (m : ManagedGateway) :
  alter f (length l) (l ++ [m]) = l ++ [f m].
Proof.
  rewrite <- (Nat.add_0_r (length l)) at 1. rewrite alter_app_r. reflexivity.
Qed.

Lemma register_effect (e : McpGatewayEntry) (st : State) :
  exists st',
    register e st = (Normal tt, st')
    /\ store st' = store st ++
         [{| entry := e; process := (if startable e then Some (fresh st) else None);
             healthy := false; restartCount := 0; restartTimer := None |}]
    /\ managedGateways st' = Map_set (name e) (length (store st)) (managedGateways st)
    /\ children st' = children st ++
         (if startable e then [(fresh st, length (store st))] else [])
    /\ fresh st' = (if startable e then S (fresh st) else fresh st)
    /\ timeouts st' = timeouts st.
Proof.
  unfold register, startable, startGatewayProcess. run_m.
  destruct (type e) eqn:Ht; simpl.
  - destruct (truthy_string (command e)), (truthy_number (port e)); simpl;
      unfold modify; simpl;
      try (eexists; split; [reflexivity|]; simpl; repeat split;
           rewrite ?app_nil_r; reflexivity).
    rewrite list_lookup_middle by reflexivity. simpl. rewrite Ht. simpl.
    eexists. split; [reflexivity|]. simpl. repeat split.
    apply alter_last.
  - eexists. split; [reflexivity|]. simpl. repeat split.
    rewrite app_nil_r. reflexivity.
Qed.

(** ** What preserves what *)

Lemma preserves_bind {A B} (P : State -> Prop) (m : M A) (k : A -> M B) :
  preserves P m -> (forall a, preserves P (k a)) -> preserves P (bind m k).
Proof.
  intros Hm Hk st HP. specialize (Hm st HP). unfold exec, bind in *.
  destruct (m st) as [[a|e] st1]; simpl in *; [apply Hk|]; exact Hm.
Qed.

Lemma preserves_for_of {A} (P : State -> Prop) (body : A -> M unit) (xs : list A) :
  (forall x, preserves P (body x)) -> preserves P (for_of xs body).
Proof.
  intros Hbody st HP. apply for_of_preserves; [|exact HP].
  intros x st1. apply Hbody.
Qed.

Lemma preserves_const {A} (P : State -> Prop) (c : Completion A) :
  preserves P (fun st => (c, st)).
Proof. intros st HP. exact HP. Qed.

Lemma preserves_gets {A} (P : State -> Prop) (f : State -> A) : preserves P (gets f).
Proof. intros st HP. exact HP. Qed.

Lemma preserves_deref (P : State -> Prop) (r : ref) : preserves P (deref r).
Proof.
  intros st HP. unfold exec, deref. destruct (store st !! r); exact HP.
Qed.

Lemma preserves_modify (P : State -> Prop) (f : State -> State) :
  (forall st, P st -> P (f st)) -> preserves P (modify f).
Proof. intros Hf st HP. apply Hf, HP. Qed.

Lemma chain_assign (r : ref) (f : ManagedGateway -> ManagedGateway) :
  preserves one_restart_chain (assign r f).
Proof.
  intros st HP. unfold one_restart_chain, exec, assign, modify in *. simpl.
  rewrite length_alter. exact HP.
Qed.

Lemma chain_logger (l : Level) (c : list (string * LogValue)) (text : string) :
  preserves one_restart_chain (logger l c text).
Proof. intros st HP. exact HP. Qed.

Lemma chain_clearTimeout (t : handle) : preserves one_restart_chain (clearTimeout t).
Proof.
  intros st HP. unfold one_restart_chain, exec, clearTimeout, modify in *. simpl.
  apply chains_ok_fewer_timeouts, HP.
Qed.

(** Going through a computation statement by statement; [leaf] deals with
    the statements that are specific to the property at hand. *)
Ltac steps_with leaf :=
  repeat first
    [ apply preserves_bind; [|intros ?]
    | apply preserves_deref
    | apply preserves_gets
    | apply preserves_const
    | leaf
    | apply preserves_modify; intros ? HP; exact HP
    | match goal with
      | |- preserves _ (if ?b then _ else _) => destruct b
      | |- preserves _ (match ?x with _ => _ end) => destruct x
      end ].

Ltac chain_steps :=
  steps_with ltac:(first [apply chain_assign | apply chain_logger | apply chain_clearTimeout]).

(** The same for the two halves of a suspended pass; [steps] is the
    tactic of the property at hand. *)
Ltac pass_steps steps :=
  unfold checkAllHealth_settle, checkAllHealth_from, checkHealth_send, checkHealth_settle,
    suspend, startMcpGateways_finish, throw, ret;
  steps;
  try (apply preserves_for_of; intros [? ?]; unfold summary; steps).

Lemma chain_stop : preserves one_restart_chain stopMcpGateways.
Proof.
  unfold stopMcpGateways, clearInterval, Map_clear. chain_steps.
  apply preserves_for_of. intros [nm r]. unfold stop_one, kill. chain_steps.
Qed.

Lemma chain_register (e : McpGatewayEntry) : preserves one_restart_chain (register e).
Proof.
  intros st HP.
  destruct (register_effect e st) as (st' & Hrun & Hstore & _ & Hch & _ & Hts).
  unfold exec. rewrite Hrun. simpl. unfold one_restart_chain in *.
  rewrite Hstore, Hch, Hts, length_app. simpl. rewrite Nat.add_1_r.
  apply chains_ok_alloc, HP.
Qed.

Lemma chain_begin (file : ConfigFile) :
  preserves one_restart_chain (startMcpGateways_begin file).
Proof.
  unfold startMcpGateways_begin, loadConfig. chain_steps.
  apply preserves_for_of, chain_register.
Qed.

Lemma chain_from (w : Platform) (startup : bool) (i : nat) :
  preserves one_restart_chain (checkAllHealth_from w startup i).
Proof. pass_steps chain_steps. Qed.

Lemma chain_settle (w : Platform) (ps : Pass) :
  preserves one_restart_chain (checkAllHealth_settle w ps).
Proof. pass_steps chain_steps. Qed.

Lemma chain_step (ev : Event) (st st' : State) :
  step ev st = Some st' -> one_restart_chain st -> one_restart_chain st'.
Proof.
  destruct ev as [file|w|i w|t|p code|p| |k w]; simpl.
  - intros [= <-]. apply chain_begin.
  - destruct (awaiting st); [discriminate|]. intros [= <-].
    apply preserves_bind; [|intros ?; apply chain_from].
    apply preserves_modify. intros ? HP. exact HP.
  - destruct (bool_decide (i ∈ (intervals st).*1)); [|discriminate].
    intros [= <-]. apply chain_from.
  - destruct (pending t (timeouts st)) as [managed|] eqn:Hp; [|discriminate].
    intros [= <-] HP. unfold exec.
    destruct (store st !! managed) as [m|] eqn:Hm.
    + destruct (startGatewayProcess_effect (remove_timeout t st) managed m Hm)
        as (st1 & Hrun & Hstore & Hch & _ & Hts & _).
      rewrite Hrun. simpl. unfold one_restart_chain in *.
      rewrite Hch, Hts. simpl.
      destruct (type (entry m)); rewrite Hstore; simpl.
      * rewrite length_insert. apply (chains_ok_fire _ _ _ t _ managed Hp HP).
      * apply chains_ok_fewer_timeouts, HP.
    + destruct (dangling_listener (remove_timeout t st) managed None Hm) as (_ & _ & ->).
      simpl. apply chains_ok_fewer_timeouts, HP.
  - destruct (listener_of p (children st)) as [managed|] eqn:Hl; [|discriminate].
    intros [= <-] HP. unfold exec.
    destruct (store st !! managed) as [m|] eqn:Hm.
    + destruct (on_close_effect (remove_child p st) managed code m Hm)
        as (st1 & Hrun & Hstore & Hts & Hch & _).
      rewrite Hrun. simpl. unfold one_restart_chain in *.
      rewrite Hstore, Hts, Hch, length_insert. simpl.
      eapply chains_ok_close; [exact Hl| |exact HP]. reflexivity.
    + destruct (dangling_listener (remove_child p st) managed code Hm) as (-> & _).
      simpl. apply chains_ok_fewer_children, HP.
  - destruct (listener_of p (children st)) as [managed|] eqn:Hl; [|discriminate].
    intros [= <-]. unfold on_error. chain_steps.
  - intros [= <-]. apply chain_stop.
  - destruct (passes st !! k) as [ps|]; [|discriminate].
    intros [= <-] HP. apply (chain_settle w ps (set_passes _ st)). exact HP.
Qed.

Lemma chain_run (evs : list Event) (st st' : State) :
  run evs st = Some st' -> one_restart_chain st -> one_restart_chain st'.
Proof.
  revert st. induction evs as [|ev evs IH]; intros st; simpl.
  - intros [= <-]. auto.
  - destruct (step ev st) as [st1|] eqn:Hstep; [|discriminate].
    intros Hrun HP. apply (IH st1 Hrun). apply (chain_step ev st st1 Hstep HP).
Qed.






(** ** The health probe *)

Lemma healthCheck_parsed (w : Platform) (address : string) (parsedUrl : URL.t) :
  URL_new w address = Some parsedUrl ->
  healthCheck w address =
    Normal (match http_get w parsedUrl with
            | response _ => true
            | request_error | request_timeout => false
            end).
Proof.
  intros H. unfold healthCheck. rewrite H.
  destruct (http_get w parsedUrl); reflexivity.
Qed.

(** C6, where the code departs from it: for an address that [new URL]
    does not accept, the promise of [healthCheck] rejects instead of
    resolving to [false]. *)
Theorem healthCheck_rejects_unparsable_address (w : Platform) (address : string) :
  URL_new w address = None ->
  healthCheck w address = Throw (TypeError "Invalid URL").
Proof.
  intros H. unfold healthCheck. rewrite H. reflexivity.
Qed.

Lemma healthCheck_rejects_unparsable_address_witness :
  getGatewayUrl Lab.no_port = Some "http://127.0.0.1:undefined/sse"
  /\ URL_new Lab.all_respond "http://127.0.0.1:undefined/sse" = None
  /\ healthCheck Lab.all_respond "http://127.0.0.1:undefined/sse"
     = Throw (TypeError "Invalid URL").
Proof.
  split; [vm_compute; reflexivity|]. split; [vm_compute; reflexivity|].
  apply healthCheck_rejects_unparsable_address. vm_compute. reflexivity.
Defined.

(** ** Declarations that cannot be started *)

Lemma register_unstartable (e : McpGatewayEntry) (st : State) :
  startable e = false ->
  children (exec (register e) st) = children st
  /\ Map_get (name e) (managedGateways (exec (register e) st)) = Some (length (store st)).
Proof.
  intros Hs.
  destruct (register_effect e st) as (st' & Hrun & _ & Hreg & Hch & _).
  unfold exec. rewrite Hrun. simpl. rewrite Hch, Hreg, Hs, app_nil_r.
  split; [reflexivity|]. apply Map_get_set_eq.
Qed.

(** C3, where the code departs from it: a stdio declaration without a
    command is not started and is reported at error severity, but it is
    registered, so the health pass probes its port and, when something
    answers there, turns it healthy and the directory lists it; a stdio
    declaration without a port makes the health pass, and with it
    [startMcpGateways], throw. *)
Theorem skipped_declaration_is_still_probed :
  let st := exec (startMcpGateways Lab.all_respond (config_of [Lab.no_command])) initial in
  startable Lab.no_command = false
  /\ children st = []
  /\ (level <$> log st !! 0) = Some error
  /\ (healthy <$> store st !! 0) = Some true
  /\ getAvailableGateways st =
       Normal [{| available_name := "files";
                  available_url := "http://host.docker.internal:9100/sse" |}]
  /\ startable Lab.no_port = false
  /\ outcome (startMcpGateways Lab.all_respond (config_of [Lab.no_port])) initial
     = Throw (TypeError "Invalid URL").
Proof.
  repeat split; vm_compute; reflexivity.
Qed.

(** ** Loading the configuration *)

(** C5, as the code has it: when the configuration file is absent or
    cannot be parsed, [startMcpGateways] returns normally having only
    logged, which is where an empty list of declarations leaves the
    state too, and [stopMcpGateways] then returns normally with nothing
    registered and nothing to publish. *)
Theorem absent_or_unparsable_config_is_absorbed
    (w : Platform) (file : ConfigFile) (st : State) :
  file = file_absent \/ file = file_unparsable ->
  outcome (startMcpGateways w file) st = Normal tt
  /\ (exists e, exec (startMcpGateways w file) st = set_log (log st ++ [e]) st)
  /\ exec (startMcpGateways w (config_of [])) st = st
  /\ managedGateways (exec (startMcpGateways w file) initial) = []
  /\ getAvailableGateways (exec (startMcpGateways w file) initial) = Normal []
  /\ outcome stopMcpGateways (exec (startMcpGateways w file) initial) = Normal tt.
Proof.
  intros [-> | ->]; (split; [reflexivity|]);
    (split; [eexists; reflexivity|]);
    (split; [destruct st; reflexivity|]); repeat split.
Qed.

Lemma absent_or_unparsable_config_is_absorbed_witness :
  outcome (startMcpGateways Lab.nothing_listens file_unparsable) initial = Normal tt
  /\ outcome stopMcpGateways
       (exec (startMcpGateways Lab.nothing_listens file_unparsable) initial) = Normal tt.
Proof.
  destruct (absent_or_unparsable_config_is_absorbed
              Lab.nothing_listens file_unparsable initial)
    as (H1 & _ & _ & _ & _ & H2); [right; reflexivity|].
  split; assumption.
Defined.

(** C5 as stated fails: a file that parses to an object without a
    [gateways] property makes [startMcpGateways] throw. *)
Lemma start_throws_without_gateways_property :
  outcome (startMcpGateways Lab.nothing_listens (file_parsed (Some {| gateways := None |})))
    initial
  = Throw (TypeError "Cannot read properties of undefined (reading 'length')").
Proof. reflexivity. Qed.

(** ** The directory *)








(** ** The registry after startup *)

Lemma registered_initial : registered [] initial.
Proof.
  unfold registered. simpl. repeat split.
  - intros r e H. rewrite lookup_nil in H. discriminate.
  - intros r m p H. rewrite lookup_nil in H. discriminate.
  - intros c H. inversion H.
  - intros p r r' H. inversion H.
  - apply NoDup_nil_2.
  - discriminate.
  - intros (e & H & _). rewrite lookup_nil in H. discriminate.
Qed.

Lemma last_declared_snoc_same (gws : list McpGatewayEntry) (e : McpGatewayEntry) (r : nat) :
  last_declared (gws ++ [e]) (name e) r <-> r = length gws.
Proof.
  split.
  - intros (e0 & He0 & Hn & Hlast).
    apply lookup_snoc_Some in He0 as [[Hlt He0]|[-> _]]; [|reflexivity].
    exfalso. apply (Hlast (length gws) e Hlt); [|reflexivity].
    apply list_lookup_middle. reflexivity.
  - intros ->. exists e. split; [apply list_lookup_middle; reflexivity|].
    split; [reflexivity|]. intros j e' Hj He'.
    apply lookup_lt_Some in He'. rewrite length_app in He'. simpl in He'. lia.
Qed.

Lemma last_declared_snoc_other (gws : list McpGatewayEntry) (e : McpGatewayEntry)
    (nm : string) (r : nat) :
  name e <> nm ->
  last_declared (gws ++ [e]) nm r <-> last_declared gws nm r.
Proof.
  intros Hne. split.
  - intros (e0 & He0 & Hn & Hlast).
    apply lookup_snoc_Some in He0 as [[Hlt He0]|[-> <-]]; [|contradiction].
    exists e0. split; [exact He0|]. split; [exact Hn|].
    intros j e' Hj He'. apply (Hlast j e' Hj).
    apply lookup_snoc_Some. left. split; [|exact He'].
    apply lookup_lt_Some in He'. exact He'.
  - intros (e0 & He0 & Hn & Hlast).
    exists e0. split.
    { apply lookup_snoc_Some. left. split; [|exact He0].
      apply lookup_lt_Some in He0. exact He0. }
    split; [exact Hn|].
    intros j e' Hj He'.
    apply lookup_snoc_Some in He' as [[_ He']|[_ <-]]; [|exact Hne].
    apply (Hlast j e' Hj He').
Qed.

Lemma registered_snoc (gws : list McpGatewayEntry) (e : McpGatewayEntry) (st : State) :
  registered gws st ->
  outcome (register e) st = Normal tt
  /\ registered (gws ++ [e]) (exec (register e) st).
Proof.
  intros (Hlen & Hobj & Hproc & Hfresh & Hfun & Hnd & Hreg).
  destruct (register_effect e st) as (st' & Hrun & Hstore & Hmap & Hch & Hfr & _).
  unfold outcome, exec. rewrite Hrun. simpl. split; [reflexivity|].
  unfold registered. rewrite Hstore, Hmap, Hch, Hfr.
  split; [|split; [|split; [|split; [|split; [|split]]]]].
  - rewrite !length_app, Hlen. reflexivity.
  - intros r e0 He0.
    apply lookup_snoc_Some in He0 as [[Hlt He0]|[-> <-]].
    + destruct (Hobj r e0 He0) as (m & Hm & He & Hs).
      exists m. split; [|auto].
      apply lookup_snoc_Some. left. split; [|exact Hm].
      apply lookup_lt_Some in Hm. exact Hm.
    + eexists. split; [apply list_lookup_middle; congruence|].
      split; [reflexivity|]. simpl. intros ->. eexists. reflexivity.
  - intros r m p Hm Hp.
    apply lookup_snoc_Some in Hm as [[_ Hm]|[-> <-]].
    + apply elem_of_app. left. apply (Hproc r m p Hm Hp).
    + simpl in Hp. destruct (startable e); [|discriminate].
      injection Hp as <-. apply elem_of_app. right. left.
  - intros c Hc. apply elem_of_app in Hc as [Hc|Hc].
    + specialize (Hfresh c Hc). destruct (startable e); lia.
    + destruct (startable e); [|inversion Hc].
      apply list_elem_of_singleton in Hc as ->. simpl. lia.
  - intros p r r' H1 H2.
    apply elem_of_app in H1 as [H1|H1]; apply elem_of_app in H2 as [H2|H2].
    + apply (Hfun p r r' H1 H2).
    + destruct (startable e); [|inversion H2].
      apply list_elem_of_singleton in H2 as [= -> ->].
      specialize (Hfresh _ H1). simpl in Hfresh. lia.
    + destruct (startable e); [|inversion H1].
      apply list_elem_of_singleton in H1 as [= -> ->].
      specialize (Hfresh _ H2). simpl in Hfresh. lia.
    + destruct (startable e); [|inversion H1].
      apply list_elem_of_singleton in H1 as [= -> ->].
      apply list_elem_of_singleton in H2 as [= ->]. reflexivity.
  - apply Map_set_NoDup, Hnd.
  - intros nm r. destruct (decide (name e = nm)) as [<-|Hne].
    + rewrite Map_get_set_eq, last_declared_snoc_same, Hlen.
      split; [intros [= <-]; reflexivity|intros ->; reflexivity].
    + rewrite (Map_get_set_ne _ _ _ _ Hne), (last_declared_snoc_other _ _ _ _ Hne).
      apply Hreg.
Qed.

Lemma register_loop (gws : list McpGatewayEntry) :
  outcome (for_of gws register) initial = Normal tt
  /\ registered gws (exec (for_of gws register) initial).
Proof.
  induction gws as [|e gws [Hout IH]] using rev_ind.
  - split; [reflexivity|apply registered_initial].
  - destruct (registered_snoc gws e _ IH) as [Hout' Hreg'].
    unfold outcome, exec in *. rewrite (for_of_snoc _ _ _ _ Hout).
    split; assumption.
Qed.

Lemma tracks_assign (st0 : State) (r : ref) (f : ManagedGateway -> ManagedGateway) :
  (forall m, same_process_track m (f m)) ->
  preserves (same_tracks st0) (assign r f).
Proof.
  intros Hf st (Hreg & Hch & Htr). repeat split; [exact Hreg|exact Hch|].
  unfold exec, assign, modify. simpl.
  apply Forall2_alter_r; [exact Htr|].
  intros a b _ _ (He & Hp & Ht). destruct (Hf b) as (He' & Hp' & Ht').
  unfold same_process_track. repeat split; congruence.
Qed.

Ltac track_steps :=
  steps_with ltac:(apply tracks_assign; intros ?; repeat split).

Lemma tracks_resume (w : Platform) (st0 : State) :
  preserves (same_tracks st0) (startMcpGateways_resume w).
Proof.
  unfold startMcpGateways_resume. track_steps.
  - apply preserves_for_of. intros [nm r]. unfold checkHealth. track_steps.
  - apply preserves_for_of. intros [nm r]. unfold summary. track_steps.
Qed.

Lemma start_state (w : Platform) (gws : list McpGatewayEntry) :
  exists st0,
    registered gws st0
    /\ same_tracks st0 (exec (startMcpGateways w (config_of gws)) initial).
Proof.
  destruct (register_loop gws) as [Hout Hreg].
  destruct (length gws =? 0)%nat eqn:Hlen.
  - apply Nat.eqb_eq, nil_length_inv in Hlen. subst gws.
    exists initial. split; [apply registered_initial|].
    repeat split. apply same_process_track_refl.
  - exists (exec (for_of gws register) initial). split; [exact Hreg|].
    unfold startMcpGateways, startMcpGateways_begin, config_of, loadConfig.
    unfold outcome, exec in *. unfold bind at 1 2. unfold ret at 1. simpl.
    rewrite Hlen. unfold bind, modify, ret.
    destruct (for_of gws register initial) as [c st1]. simpl in *. subst c.
    apply (tracks_resume w st1).
    repeat split. apply same_process_track_refl.
Qed.

(** C10: after startup from the initial state the registry has one entry
    per declared name, and each name maps to the object of its last
    declaration (object [r] is the one created for declaration [r]).  When
    a startable declaration is followed by another of the same name, its
    child runs and listens for its object, which also holds the child's
    handle, but no registry entry leads to that object or to that handle. *)
Theorem registry_last_declaration_wins (w : Platform) (gws : list McpGatewayEntry) :
  let st := exec (startMcpGateways w (config_of gws)) initial in
  NoDup ((managedGateways st).*1)
  /\ (forall nm r, Map_get nm (managedGateways st) = Some r <-> last_declared gws nm r)
  /\ (forall r e, gws !! r = Some e -> exists m, store st !! r = Some m /\ entry m = e)
  /\ (forall i j ei ej,
        i < j -> gws !! i = Some ei -> gws !! j = Some ej ->
        name ei = name ej -> startable ei = true ->
        exists mi p,
          store st !! i = Some mi /\ process mi = Some p /\ (p, i) ∈ children st
          /\ forall nm r m,
               Map_get nm (managedGateways st) = Some r -> store st !! r = Some m ->
               r <> i /\ process m <> Some p).
Proof.
  destruct (start_state w gws) as (st0 & Hreg & Hmap & Hch & Htr).
  destruct Hreg as (Hlen & Hobj & Hproc & Hfresh & Hfun & Hnd & Hlast).
  simpl. rewrite Hmap, Hch.
  split; [exact Hnd|]. split; [exact Hlast|]. split.
  - intros r e He. destruct (Hobj r e He) as (m0 & Hm0 & He0 & _).
    destruct (Forall2_lookup_l _ _ _ _ _ Htr Hm0) as (m & Hm & (Hent & _)).
    exists m. split; [exact Hm|congruence].
  - intros i j ei ej Hij Hi Hj Hname Hstart.
    destruct (Hobj i ei Hi) as (m0 & Hm0 & He0 & Hsome).
    destruct (Hsome Hstart) as [p Hp].
    destruct (Forall2_lookup_l _ _ _ _ _ Htr Hm0) as (mi & Hmi & (_ & Hpi & _)).
    exists mi, p. split; [exact Hmi|]. split; [congruence|].
    split; [apply (Hproc i m0 p Hm0 Hp)|].
    intros nm r m Hget Hm.
    assert (r <> i) as Hne.
    { intros ->. apply Hlast in Hget as (e & He & Hn & Hlater).
      assert (e = ei) as -> by congruence.
      apply (Hlater j ej Hij Hj). congruence. }
    split; [exact Hne|]. intros Hpm.
    destruct (Forall2_lookup_r _ _ _ _ _ Htr Hm) as (m1 & Hm1 & (_ & Hp1 & _)).
    apply Hne. apply (Hfun p r i).
    + apply (Hproc r m1 p Hm1). congruence.
    + apply (Hproc i m0 p Hm0 Hp).
Qed.

Lemma registry_last_declaration_wins_witness :
  let st := exec (startMcpGateways Lab.all_respond (config_of [Lab.echo; Lab.echo_again]))
              initial in
  Map_get "echo" (managedGateways st) = Some 1
  /\ exists mi p,
       store st !! 0 = Some mi /\ process mi = Some p /\ (p, 0) ∈ children st
       /\ forall nm r m,
            Map_get nm (managedGateways st) = Some r -> store st !! r = Some m ->
            r <> 0 /\ process m <> Some p.
Proof.
  destruct (registry_last_declaration_wins Lab.all_respond [Lab.echo; Lab.echo_again])
    as (_ & Hlast & _ & Hlost).
  split.
  - apply Hlast. exists Lab.echo_again. split; [reflexivity|]. split; [reflexivity|].
    intros [|[|[|j]]] e' Hj He'; try lia; discriminate He'.
  - apply (Hlost 0 1 Lab.echo Lab.echo_again); [lia|reflexivity..].
Defined.

(** ** References stay valid *)

Lemma Map_set_elem {V} (k : string) (v : V) (m : list (string * V)) (x : string * V) :
  x ∈ Map_set k v m -> x = (k, v) \/ x ∈ m.
Proof.
  induction m as [|[k' v'] m IH]; cbn [Map_set].
  - intros H. apply list_elem_of_singleton in H. left. exact H.
  - destruct (String.eqb k' k).
    + intros H. apply elem_of_cons in H as [H|H]; [left; exact H|].
      right. right. exact H.
    + intros H. apply elem_of_cons in H as [H|H]; [right; rewrite H; left|].
      destruct (IH H) as [Hx|Hx]; [left; exact Hx|right; right; exact Hx].
Qed.

Lemma refs_assign (r : ref) (f : ManagedGateway -> ManagedGateway) :
  preserves refs_valid (assign r f).
Proof.
  intros st HP x Hx. unfold exec, assign, modify in *. simpl in *.
  rewrite length_alter. apply (HP x Hx).
Qed.

Ltac refs_steps := steps_with ltac:(apply refs_assign).

Lemma refs_register (e : McpGatewayEntry) : preserves refs_valid (register e).
Proof.
  intros st HP x Hx.
  destruct (register_effect e st) as (st' & Hrun & Hstore & Hmap & _).
  unfold exec in *. rewrite Hrun in *. simpl in *.
  rewrite Hstore, length_app. rewrite Hmap in Hx. simpl.
  apply Map_set_elem in Hx as [->|Hx]; [simpl; lia|].
  specialize (HP x Hx). lia.
Qed.

Lemma refs_from (w : Platform) (startup : bool) (i : nat) :
  preserves refs_valid (checkAllHealth_from w startup i).
Proof. pass_steps refs_steps. Qed.

Lemma refs_settle (w : Platform) (ps : Pass) :
  preserves refs_valid (checkAllHealth_settle w ps).
Proof. pass_steps refs_steps. Qed.

Lemma refs_step (ev : Event) (st st' : State) :
  step ev st = Some st' -> refs_valid st -> refs_valid st'.
Proof.
  destruct ev as [file|w|i w|t|p code|p| |k w]; simpl.
  - intros [= <-]. unfold startMcpGateways_begin, loadConfig. refs_steps.
    apply preserves_for_of, refs_register.
  - destruct (awaiting st); [discriminate|]. intros [= <-].
    apply preserves_bind; [|intros ?; apply refs_from].
    apply preserves_modify. intros ? HP. exact HP.
  - destruct (bool_decide (i ∈ (intervals st).*1)); [|discriminate].
    intros [= <-]. apply refs_from.
  - destruct (pending t (timeouts st)) as [managed|]; [|discriminate].
    intros [= <-] HP. unfold exec.
    destruct (store st !! managed) as [m|] eqn:Hm.
    + destruct (startGatewayProcess_effect (remove_timeout t st) managed m Hm)
        as (st1 & Hrun & Hstore & _ & _ & _ & Hmap).
      rewrite Hrun. simpl. intros x Hx. rewrite Hmap in Hx. rewrite Hstore.
      destruct (type (entry m)); rewrite ?length_insert; apply (HP x Hx).
    + destruct (dangling_listener (remove_timeout t st) managed None Hm) as (_ & _ & ->).
      exact HP.
  - destruct (listener_of p (children st)) as [managed|]; [|discriminate].
    intros [= <-] HP. unfold exec.
    destruct (store st !! managed) as [m|] eqn:Hm.
    + destruct (on_close_effect (remove_child p st) managed code m Hm)
        as (st1 & Hrun & Hstore & _ & _ & Hmap & _).
      rewrite Hrun. simpl. intros x Hx. rewrite Hmap in Hx.
      rewrite Hstore, length_insert. apply (HP x Hx).
    + destruct (dangling_listener (remove_child p st) managed code Hm) as (-> & _).
      exact HP.
  - destruct (listener_of p (children st)) as [managed|]; [|discriminate].
    intros [= <-]. unfold on_error. refs_steps.
  - intros [= <-]. unfold stopMcpGateways, clearInterval, Map_clear. refs_steps.
    + apply preserves_for_of. intros [nm r]. unfold stop_one, kill, clearTimeout.
      refs_steps.
    + intros st0 _ x Hx. inversion Hx.
  - destruct (passes st !! k) as [ps|]; [|discriminate].
    intros [= <-] HP. apply (refs_settle w ps (set_passes _ st)). exact HP.
Qed.

Lemma refs_run (evs : list Event) (st st' : State) :
  run evs st = Some st' -> refs_valid st -> refs_valid st'.
Proof.
  revert st. induction evs as [|ev evs IH]; intros st; simpl.
  - intros [= <-]. auto.
  - destruct (step ev st) as [st1|] eqn:Hstep; [|discriminate].
    intros Hrun HP. apply (IH st1 Hrun), (refs_step ev st st1 Hstep HP).
Qed.

(** Along every run from the initial state the registry, the listeners
    and the pending restarts refer to objects in the store. *)
Lemma refs_valid_run (evs : list Event) (st : State) :
  run evs initial = Some st ->
  Forall (fun x => is_Some (store st !! x.2)) (managedGateways st)
  /\ Forall (fun c => is_Some (store st !! c.2)) (children st)
  /\ Forall (fun x => is_Some (store st !! timeout_target x)) (timeouts st).
Proof.
  intros Hrun.
  assert (refs_valid st) as Hrefs.
  { apply (refs_run evs initial st Hrun). intros x Hx. inversion Hx. }
  assert (one_restart_chain st) as (Hch & Hts & _).
  { apply (chain_run evs initial st Hrun), chains_ok_initial. }
  repeat split; apply Forall_forall; intros x Hx; apply lookup_lt_is_Some; auto.
Qed.

(** * Further properties of the module *)

(** ** The PATH of the helper *)

Lemma indexOf_seen (v : string) (pre suf : list string) :
  v ∈ pre -> exists i, Array_indexOf v (pre ++ suf) = Some i /\ i < length pre.
Proof.
  induction pre as [|x pre IH]; intros Hin; [inversion Hin|].
  simpl. destruct (String.eqb_spec x v) as [->|Hne].
  - exists 0. split; [reflexivity|simpl; lia].
  - apply elem_of_cons in Hin as [->|Hin]; [contradiction|].
    destruct (IH Hin) as (i & -> & Hi). exists (S i). split; [reflexivity|simpl; lia].
Qed.

Lemma indexOf_new (v : string) (pre suf : list string) :
  v ∉ pre -> Array_indexOf v (pre ++ v :: suf) = Some (length pre).
Proof.
  induction pre as [|x pre IH]; intros Hnot; simpl.
  - rewrite String.eqb_refl. reflexivity.
  - apply not_elem_of_cons in Hnot as [Hne Hnot].
    destruct (String.eqb_spec x v) as [->|_]; [contradiction|].
    rewrite (IH Hnot). reflexivity.
Qed.

Lemma keep_new_ext (s1 s2 l : list string) :
  (forall x, x ∈ s1 <-> x ∈ s2) -> keep_new s1 l = keep_new s2 l.
Proof.
  revert s1 s2. induction l as [|x l IH]; intros s1 s2 Hext; [reflexivity|].
  simpl. destruct (decide (x ∈ s1)) as [Hin|Hnot].
  - rewrite (bool_decide_eq_true_2 _ Hin).
    rewrite (bool_decide_eq_true_2 (x ∈ s2)) by (apply Hext, Hin).
    apply IH, Hext.
  - rewrite (bool_decide_eq_false_2 _ Hnot).
    rewrite (bool_decide_eq_false_2 (x ∈ s2)) by (rewrite <- Hext; exact Hnot).
    f_equal. apply IH. intros y. rewrite !elem_of_app, Hext. reflexivity.
Qed.

Lemma filter_from_keep_new (pre suf a : list string) :
  a = pre ++ suf ->
  filter_from (length pre) (fun v i => bool_decide (Array_indexOf v a = Some i)) suf
  = keep_new pre suf.
Proof.
  revert pre. induction suf as [|x suf IH]; intros pre Ha; [reflexivity|].
  assert (a = (pre ++ [x]) ++ suf) as Ha' by (rewrite Ha, <- app_assoc; reflexivity).
  specialize (IH (pre ++ [x]) Ha').
  rewrite length_app, Nat.add_1_r in IH.
  simpl. rewrite IH. destruct (decide (x ∈ pre)) as [Hin|Hnot].
  - rewrite (bool_decide_eq_true_2 (x ∈ pre) Hin).
    destruct (indexOf_seen x pre (x :: suf) Hin) as (i & Hi & Hlt).
    rewrite bool_decide_eq_false_2 by (rewrite Ha, Hi; intros [= ->]; lia).
    apply keep_new_ext. intros y. rewrite elem_of_app, list_elem_of_singleton.
    split; [intros [Hy| ->]; assumption|auto].
  - rewrite (bool_decide_eq_false_2 (x ∈ pre) Hnot).
    rewrite bool_decide_eq_true_2 by (rewrite Ha; apply indexOf_new, Hnot).
    reflexivity.
Qed.

Lemma keep_new_spec (seen l : list string) :
  NoDup (keep_new seen l)
  /\ forall x, x ∈ keep_new seen l <-> x ∈ l /\ x ∉ seen.
Proof.
  revert seen. induction l as [|y l IH]; intros seen; simpl.
  - split; [apply NoDup_nil_2|]. intros x. split; [intros H; inversion H|].
    intros [H _]. inversion H.
  - destruct (decide (y ∈ seen)) as [Hin|Hnot].
    + rewrite (bool_decide_eq_true_2 _ Hin). destruct (IH seen) as [Hnd Hel].
      split; [exact Hnd|]. intros x. rewrite Hel, elem_of_cons.
      split; [intros [H1 H2]; auto|].
      intros [[->|H1] H2]; [contradiction|auto].
    + rewrite (bool_decide_eq_false_2 _ Hnot).
      destruct (IH (seen ++ [y])) as [Hnd Hel]. split.
      * apply NoDup_cons. split; [|exact Hnd].
        rewrite Hel, elem_of_app, list_elem_of_singleton. intros [_ H]. apply H. auto.
      * intros x. rewrite !elem_of_cons, Hel, elem_of_app, list_elem_of_singleton.
        split.
        -- intros [->|[H1 H2]]; [auto|]. split; [auto|]. intros H. apply H2. auto.
        -- intros [[->|H1] H2]; [auto|].
           destruct (decide (x = y)) as [->|Hne]; [auto|].
           right. split; [exact H1|]. intros [H|H]; [contradiction|contradiction].
Qed.

Lemma keep_new_seen (seen l : list string) :
  (forall x, x ∈ l -> x ∈ seen) -> keep_new seen l = [].
Proof.
  intros Hall. destruct (keep_new seen l) as [|x r] eqn:Hk; [reflexivity|].
  exfalso. assert (x ∈ keep_new seen l) as Hx by (rewrite Hk; left).
  apply keep_new_spec in Hx as [Hx Hnot]. apply Hnot, Hall, Hx.
Qed.

Lemma keep_new_app (seen l1 l2 : list string) :
  keep_new seen (l1 ++ l2) = keep_new seen l1 ++ keep_new (seen ++ l1) l2.
Proof.
  revert seen. induction l1 as [|x l1 IH]; intros seen; simpl.
  - rewrite app_nil_r. reflexivity.
  - destruct (decide (x ∈ seen)) as [Hin|Hnot].
    + rewrite (bool_decide_eq_true_2 _ Hin), IH. f_equal.
      apply keep_new_ext. intros y. rewrite !elem_of_app, elem_of_cons.
      split; [intros [H|H]; auto|]. intros [H|[->|H]]; auto.
    + rewrite (bool_decide_eq_false_2 _ Hnot), IH. simpl. f_equal. f_equal.
      rewrite <- app_assoc. reflexivity.
Qed.

Lemma keep_new_fresh (seen l : list string) :
  NoDup l -> (forall x, x ∈ l -> x ∉ seen) -> keep_new seen l = l.
Proof.
  revert seen. induction l as [|x l IH]; intros seen Hnd Hnot; [reflexivity|].
  apply NoDup_cons in Hnd as [Hx Hnd]. simpl.
  rewrite bool_decide_eq_false_2 by (apply Hnot; left).
  f_equal. apply IH; [exact Hnd|].
  intros y Hy. rewrite elem_of_app, list_elem_of_singleton.
  intros [H| ->]; [|contradiction].
  apply (Hnot y); [right; exact Hy|exact H].
Qed.

Lemma extraPaths_NoDup : NoDup extraPaths.
Proof. apply (bool_decide_unpack (NoDup extraPaths)). vm_compute. exact I. Qed.

Lemma PATH_components_keep_new (current : option string) :
  PATH_components current
  = extraPaths ++ keep_new extraPaths (String_split ":"%char (currentPath current)).
Proof.
  unfold PATH_components, Array_filter.
  set (a := extraPaths ++ String_split ":"%char (currentPath current)).
  pose proof (filter_from_keep_new [] a a eq_refl) as H.
  change (length (@nil string)) with 0 in H. rewrite H.
  unfold a. rewrite keep_new_app, (keep_new_fresh [] extraPaths); [reflexivity| |].
  - apply extraPaths_NoDup.
  - intros x _ Hx. inversion Hx.
Qed.

(** The PATH handed to the helper starts with the three extra
    directories, in their order, followed by the components of the current
    PATH (of [/usr/bin:/bin] when PATH is unset or empty) that are not
    among them, each at its first occurrence; no component occurs twice. *)
Theorem PATH_components_spec (current : option string) :
  PATH_components current
  = extraPaths ++ keep_new extraPaths (String_split ":"%char (currentPath current))
  /\ NoDup (PATH_components current)
  /\ (forall x, x ∈ PATH_components current
                <-> x ∈ extraPaths \/ x ∈ String_split ":"%char (currentPath current))
  /\ PATH_components None = extraPaths ++ ["/usr/bin"; "/bin"]
  /\ PATH_components (Some EmptyString) = PATH_components None.
Proof.
  split; [apply PATH_components_keep_new|].
  rewrite PATH_components_keep_new.
  destruct (keep_new_spec extraPaths (String_split ":"%char (currentPath current)))
    as [Hnd Hel].
  split; [|split; [|split; reflexivity]].
  - apply NoDup_app. split; [|split; [|exact Hnd]].
    + apply extraPaths_NoDup.
    + intros x Hx Hk. apply Hel in Hk as [_ Hnot]. contradiction.
  - intros x. rewrite elem_of_app, Hel.
    split; [intros [H|[H _]]; auto|].
    intros [H|H]; [auto|].
    destruct (decide (x ∈ extraPaths)); auto.
Qed.

Lemma includes_colon_cons (c : ascii) (s : string) :
  String_includes ":" (String c s)
  = if Ascii.eqb ":"%char c then true else String_includes ":" s.
Proof. cbn -[Ascii.eqb]. destruct (Ascii.eqb ":"%char c); reflexivity. Qed.

Lemma split_cons_other (c : ascii) (s : string) :
  Ascii.eqb c ":"%char = false ->
  exists x xs, String_split ":"%char s = x :: xs
               /\ String_split ":"%char (String c s) = String c x :: xs.
Proof.
  intros Hc. cbn -[Ascii.eqb]. rewrite Hc.
  destruct (String_split ":"%char s) as [|x xs] eqn:Hs.
  - destruct s; cbn -[Ascii.eqb] in Hs; [discriminate|].
    destruct (Ascii.eqb a ":"%char); [discriminate|].
    destruct (String_split ":"%char s); discriminate.
  - exists x, xs. split; reflexivity.
Qed.

Lemma split_no_colon (s : string) :
  Forall (fun x => String_includes ":" x = false) (String_split ":"%char s).
Proof.
  induction s as [|c s IH]; [repeat constructor|].
  destruct (Ascii.eqb c ":"%char) eqn:Hc.
  - cbn -[Ascii.eqb]. rewrite Hc. constructor; [reflexivity|exact IH].
  - destruct (split_cons_other c s Hc) as (x & xs & Hs & ->).
    rewrite Hs in IH. apply Forall_cons in IH as [Hx Hxs].
    constructor; [|exact Hxs].
    rewrite includes_colon_cons, Ascii.eqb_sym, Hc. exact Hx.
Qed.

Lemma split_append (x s : string) :
  String_includes ":" x = false ->
  String_split ":"%char (x +:+ String ":"%char s) = x :: String_split ":"%char s.
Proof.
  induction x as [|c x IH]; intros Hx.
  - reflexivity.
  - rewrite includes_colon_cons in Hx.
    destruct (Ascii.eqb ":"%char c) eqn:Hc; [discriminate|].
    rewrite Ascii.eqb_sym in Hc.
    change (String c x +:+ String ":"%char s) with (String c (x +:+ String ":"%char s)).
    destruct (split_cons_other c (x +:+ String ":"%char s) Hc) as (y & ys & Hs & ->).
    rewrite (IH Hx) in Hs. injection Hs as <- <-. reflexivity.
Qed.

Lemma split_single (x : string) :
  String_includes ":" x = false -> String_split ":"%char x = [x].
Proof.
  induction x as [|c x IH]; intros Hx; [reflexivity|].
  rewrite includes_colon_cons in Hx.
  destruct (Ascii.eqb ":"%char c) eqn:Hc; [discriminate|].
  rewrite Ascii.eqb_sym in Hc.
  destruct (split_cons_other c x Hc) as (y & ys & Hs & ->).
  rewrite (IH Hx) in Hs. injection Hs as <- <-. reflexivity.
Qed.

(** Joining with [:] and splitting at [:] are inverse to each other on
    lists of components without a colon. *)
Lemma split_concat (l : list string) :
  l <> [] ->
  Forall (fun x => String_includes ":" x = false) l ->
  String_split ":"%char (String.concat ":" l) = l.
Proof.
  induction l as [|x l IH]; intros Hne Hall; [contradiction|].
  apply Forall_cons in Hall as [Hx Hall].
  destruct l as [|y l].
  - simpl. apply split_single, Hx.
  - change (String.concat ":" (x :: y :: l))
      with (x +:+ String ":"%char (String.concat ":" (y :: l))).
    rewrite (split_append _ _ Hx), IH; [reflexivity|discriminate|exact Hall].
Qed.

Lemma concat_split (s : string) :
  String.concat ":" (String_split ":"%char s) = s.
Proof.
  induction s as [|c s IH]; [reflexivity|].
  destruct (Ascii.eqb c ":"%char) eqn:Hc.
  - cbn -[Ascii.eqb String.concat]. rewrite Hc. apply Ascii.eqb_eq in Hc as ->.
    destruct (String_split ":"%char s) as [|x xs] eqn:Hs.
    + destruct s; cbn -[Ascii.eqb] in Hs; [discriminate|].
      destruct (Ascii.eqb a ":"%char); [discriminate|].
      destruct (String_split ":"%char s); discriminate.
    + rewrite <- IH. reflexivity.
  - destruct (split_cons_other c s Hc) as (x & xs & Hs & ->).
    rewrite Hs in IH. rewrite <- IH. destruct xs; reflexivity.
Qed.

Lemma PATH_components_no_colon (current : option string) :
  Forall (fun x => String_includes ":" x = false) (PATH_components current).
Proof.
  apply Forall_forall. intros x Hx.
  rewrite PATH_components_keep_new in Hx.
  apply elem_of_app in Hx as [Hx|Hx].
  - unfold extraPaths in Hx.
    repeat (apply elem_of_cons in Hx as [->|Hx]; [reflexivity|]). inversion Hx.
  - apply keep_new_spec in Hx as [Hx _].
    pose proof (split_no_colon (currentPath current)) as Hall.
    rewrite Forall_forall in Hall. apply Hall, Hx.
Qed.

(** Augmenting is idempotent: a PATH that has been augmented once comes
    out of a second augmentation unchanged (a supervisor started from the
    environment of another one hands on the same PATH). *)
Theorem augmented_PATH_idempotent (current : option string) :
  augmented_PATH (Some (augmented_PATH current)) = augmented_PATH current.
Proof.
  unfold augmented_PATH at 1 3. f_equal.
  rewrite (PATH_components_keep_new (Some _)).
  assert (currentPath (Some (augmented_PATH current)) = augmented_PATH current) as ->.
  { unfold augmented_PATH. rewrite PATH_components_keep_new.
    destruct (keep_new extraPaths _); reflexivity. }
  unfold augmented_PATH. rewrite split_concat.
  - rewrite PATH_components_keep_new at 1.
    set (R := keep_new extraPaths (String_split ":"%char (currentPath current))).
    rewrite keep_new_app, (keep_new_seen extraPaths extraPaths) by auto.
    rewrite PATH_components_keep_new. fold R. rewrite app_nil_l. f_equal.
    rewrite (keep_new_ext (extraPaths ++ extraPaths) extraPaths)
      by (intros x; rewrite elem_of_app; tauto).
    destruct (keep_new_spec extraPaths (String_split ":"%char (currentPath current)))
      as [Hnd Hel].
    apply keep_new_fresh; [exact Hnd|]. intros x Hx. apply Hel in Hx as [_ Hx]. exact Hx.
  - rewrite PATH_components_keep_new. discriminate.
  - apply PATH_components_no_colon.
Qed.

(** ** The environment and the command line of the helper *)




Lemma append_assoc (a b c : string) : (a +:+ b) +:+ c = a +:+ (b +:+ c).
Proof.
  induction a as [|x a IH]; [reflexivity|].
  change (String x ((a +:+ b) +:+ c) = String x (a +:+ (b +:+ c))).
  rewrite IH. reflexivity.
Qed.

Lemma concat_cons (sep x : string) (l : list string) :
  l <> [] -> String.concat sep (x :: l) = x +:+ sep +:+ String.concat sep l.
Proof. destruct l; [contradiction|reflexivity]. Qed.

Lemma concat_space_merge (l1 l2 : list string) (a b : string) :
  String.concat " " (l1 ++ (a +:+ " " +:+ b) :: l2)
  = String.concat " " (l1 ++ a :: b :: l2).
Proof.
  induction l1 as [|x l1 IH].
  - rewrite !app_nil_l. destruct l2 as [|y l2]; [reflexivity|].
    rewrite !(concat_cons " " _ (_ :: _)) by discriminate.
    rewrite !append_assoc. reflexivity.
  - rewrite <- !app_comm_cons.
    rewrite !(concat_cons " " x) by (destruct l1; discriminate).
    rewrite IH. reflexivity.
Qed.

(** The wrapped command line does not keep the boundaries between
    arguments: an argument with a space in it gives the same command line,
    and so the same helper arguments, as the two arguments it splits
    into. *)
Theorem stdioCmd_merges_arguments
    (h : Host) (e1 e2 : McpGatewayEntry) (l1 l2 : list string) (a b : string) :
  command e1 = command e2 ->
  port e1 = port e2 ->
  args e1 = Some (l1 ++ (a +:+ " " +:+ b) :: l2) ->
  args e2 = Some (l1 ++ a :: b :: l2) ->
  stdioCmd h e1 = stdioCmd h e2
  /\ supergateway_args h e1 = supergateway_args h e2.
Proof.
  intros Hc Hp H1 H2.
  assert (stdioCmd h e1 = stdioCmd h e2) as Hcmd.
  { unfold stdioCmd, Array_join. rewrite Hc, H1, H2. simpl.
    rewrite !map_map. simpl. rewrite !map_id.
    apply (concat_space_merge (_ :: l1) l2 a b). }
  split; [exact Hcmd|].
  unfold supergateway_args. rewrite Hcmd, Hp. reflexivity.
Qed.

(** ** Shutdown *)

Lemma stop_one_effect (nm : string) (r : ref) (m : ManagedGateway) (st : State) :
  store st !! r = Some m ->
  exists st',
    stop_one (nm, r) st = (Normal tt, st')
    /\ store st' = store st /\ children st' = children st
    /\ managedGateways st' = managedGateways st
    /\ healthCheckTimer st' = healthCheckTimer st
    /\ intervals st' = intervals st /\ fresh st' = fresh st
    /\ timeouts st' = match restartTimer m with
                      | Some t => filter (fun x => timeout_id x <> t) (timeouts st)
                      | None => timeouts st
                      end
    /\ signalled st' = match process m with
                       | Some p => signalled st ++ [p]
                       | None => signalled st
                       end.
Proof.
  intros Hm. unfold stop_one. run_m. rewrite Hm.
  destruct (restartTimer m), (process m); simpl;
    eexists; (split; [reflexivity|]); repeat split.
Qed.

Lemma stop_loop_effect (it : list (string * ref)) (st : State) :
  Forall (fun x => is_Some (store st !! x.2)) it ->
  exists st',
    for_of it stop_one st = (Normal tt, st')
    /\ store st' = store st /\ children st' = children st
    /\ managedGateways st' = managedGateways st
    /\ healthCheckTimer st' = healthCheckTimer st
    /\ intervals st' = intervals st /\ fresh st' = fresh st
    /\ timeouts st' =
         filter (fun x => timeout_id x ∉
                   omap (fun y : string * ref => store st !! y.2 ≫= restartTimer) it)
                (timeouts st)
    /\ signalled st' =
         signalled st ++ omap (fun y : string * ref => store st !! y.2 ≫= process) it.
Proof.
  revert st. induction it as [|[nm r] it IH]; intros st Hrefs.
  - exists st. split; [reflexivity|]. repeat split.
    + symmetry. clear Hrefs. induction (timeouts st) as [|x ts IHts]; [reflexivity|].
      rewrite filter_cons. simpl. destruct (decide (timeout_id x ∉ [])) as [_|Hx].
      * f_equal. exact IHts.
      * exfalso. apply Hx. apply not_elem_of_nil.
    + simpl. rewrite app_nil_r. reflexivity.
  - apply Forall_cons in Hrefs as [[m Hm] Hrefs]. simpl in Hm.
    destruct (stop_one_effect nm r m st Hm)
      as (st1 & Hrun & Hs & Hc & Hr & Hh & Hi & Hf & Ht & Hk).
    rewrite <- Hs in Hrefs.
    destruct (IH st1 Hrefs) as (st' & Hrun' & Hs' & Hc' & Hr' & Hh' & Hi' & Hf' & Ht' & Hk').
    exists st'. split.
    { change (for_of ((nm, r) :: it) stop_one st)
        with (bind (stop_one (nm, r)) (fun _ => for_of it stop_one) st).
      unfold bind. rewrite Hrun. exact Hrun'. }
    rewrite Hs', Hc', Hr', Hh', Hi', Hf', Ht', Hk', Hs, Hc, Hr, Hh, Hi, Hf, Ht, Hk.
    repeat split; simpl; rewrite Hm; simpl.
    + destruct (restartTimer m) as [t|].
      * rewrite list_filter_filter. apply list_filter_iff. intros x.
        rewrite not_elem_of_cons. tauto.
      * reflexivity.
    + destruct (process m); [rewrite <- app_assoc|]; reflexivity.
Qed.

Lemma pending_cancelled (t : handle) (cancelled : list handle) (ts : list Timeout) :
  t ∈ cancelled ->
  pending t (filter (fun x => timeout_id x ∉ cancelled) ts) = None.
Proof.
  intros Ht. induction ts as [|x ts IH]; [reflexivity|].
  rewrite filter_cons. destruct (decide (timeout_id x ∉ cancelled)) as [Hx|_]; [|exact IH].
  simpl. destruct (Nat.eqb_spec (timeout_id x) t) as [Heq|_]; [|exact IH].
  exfalso. apply Hx. rewrite Heq. exact Ht.
Qed.

Lemma rewind_twice (l : list Pass) :
  set_pass_index 0 <$> (set_pass_index 0 <$> l) = set_pass_index 0 <$> l.
Proof.
  induction l as [|ps l IH]; [reflexivity|].
  rewrite !fmap_cons, IH. reflexivity.
Qed.

Lemma stop_state (st : State) :
  Forall (fun x => is_Some (store st !! x.2)) (managedGateways st) ->
  exists st',
    stopMcpGateways st = (Normal tt, st')
    /\ managedGateways st' = [] /\ healthCheckTimer st' = None
    /\ store st' = store st /\ children st' = children st /\ fresh st' = fresh st
    /\ intervals st' = match healthCheckTimer st with
                       | Some i => filter (fun x => x.1 <> i) (intervals st)
                       | None => intervals st
                       end
    /\ timeouts st' =
         filter (fun x => timeout_id x ∉
                   omap (fun y : string * ref => store st !! y.2 ≫= restartTimer)
                        (managedGateways st))
                (timeouts st)
    /\ signalled st' =
         signalled st ++ omap (fun y : string * ref => store st !! y.2 ≫= process)
                              (managedGateways st)
    /\ set_pass_index 0 <$> passes st' = passes st'.
Proof.
  intros Hrefs. unfold stopMcpGateways, Map_clear. run_m.
  destruct (healthCheckTimer st) as [i|] eqn:Hi; simpl.
  - destruct (stop_loop_effect (managedGateways st)
                (set_healthCheckTimer None
                   (set_intervals (filter (fun x => x.1 <> i) (intervals st)) st)) Hrefs)
      as (st' & Hrun & Hs & Hc & Hr & Hh & Hi' & Hf & Ht & Hk).
    rewrite Hrun. simpl. eexists. split; [reflexivity|]. simpl.
    rewrite Hs, Hc, Hh, Hi', Hf, Ht, Hk. repeat split. apply rewind_twice.
  - destruct (stop_loop_effect (managedGateways st) st Hrefs)
      as (st' & Hrun & Hs & Hc & Hr & Hh & Hi' & Hf & Ht & Hk).
    rewrite Hrun. simpl. eexists. split; [reflexivity|]. simpl.
    rewrite Hs, Hc, Hh, Hi', Hf, Ht, Hk, Hi. repeat split. apply rewind_twice.
Qed.

(** On a state whose registry refers to stored objects, shutdown returns
    normally and leaves the registry empty and nothing to publish; the
    polling interval on record is cancelled and no other, no restart
    timer on record in a registered object is pending any longer, and
    every helper on record in a registered object has been sent SIGTERM.
    The objects themselves and the children with their listeners are left
    as they were. *)
Theorem stopMcpGateways_effect (st : State) :
  Forall (fun x => is_Some (store st !! x.2)) (managedGateways st) ->
  let st' := exec stopMcpGateways st in
  outcome stopMcpGateways st = Normal tt
  /\ managedGateways st' = []
  /\ healthCheckTimer st' = None
  /\ getAvailableGateways st' = Normal []
  /\ store st' = store st
  /\ children st' = children st
  /\ (forall i, healthCheckTimer st = Some i -> i ∉ (intervals st').*1)
  /\ (forall x, x ∈ intervals st -> healthCheckTimer st <> Some x.1 -> x ∈ intervals st')
  /\ (forall nm r m t,
        (nm, r) ∈ managedGateways st -> store st !! r = Some m ->
        restartTimer m = Some t -> pending t (timeouts st') = None)
  /\ (forall nm r m p,
        (nm, r) ∈ managedGateways st -> store st !! r = Some m ->
        process m = Some p -> p ∈ signalled st').
Proof.
  intros Hrefs.
  destruct (stop_state st Hrefs)
    as (st1 & Hrun & Hr & Hh & Hs & Hc & Hf & Hi & Ht & Hk & _).
  unfold outcome, exec. rewrite Hrun. simpl.
  split; [reflexivity|]. split; [exact Hr|]. split; [exact Hh|].
  split; [unfold getAvailableGateways; rewrite Hr; reflexivity|].
  split; [exact Hs|]. split; [exact Hc|]. split; [|split; [|split]].
  - intros i Hhi Hin. rewrite Hi, Hhi in Hin.
    apply list_elem_of_fmap in Hin as (x & -> & Hx).
    apply list_elem_of_filter in Hx as [Hx _]. apply Hx. reflexivity.
  - intros x Hx Hne. rewrite Hi. destruct (healthCheckTimer st) as [i|]; [|exact Hx].
    apply list_elem_of_filter. split; [congruence|exact Hx].
  - intros nm r m t Hin Hm Hrt. rewrite Ht. apply pending_cancelled.
    apply list_elem_of_omap. exists (nm, r). split; [exact Hin|].
    simpl. rewrite Hm. exact Hrt.
  - intros nm r m p Hin Hm Hp. rewrite Hk. apply elem_of_app. right.
    apply list_elem_of_omap. exists (nm, r). split; [exact Hin|].
    simpl. rewrite Hm. exact Hp.
Qed.

(** A second shutdown right after the first changes nothing. *)
Theorem stopMcpGateways_idempotent (st : State) :
  Forall (fun x => is_Some (store st !! x.2)) (managedGateways st) ->
  stopMcpGateways (exec stopMcpGateways st) = (Normal tt, exec stopMcpGateways st).
Proof.
  intros Hrefs.
  destruct (stop_state st Hrefs) as (st1 & Hrun & Hr & Hh & _ & _ & _ & _ & _ & _ & Hp).
  unfold exec. rewrite Hrun. simpl.
  unfold stopMcpGateways, Map_clear. run_m. rewrite Hh, Hr. simpl.
  unfold modify. rewrite Hp.
  destruct st1. simpl in *. subst. reflexivity.
Qed.

(** ** Handles are not reused *)

Lemma fresh_new_handle : preserves handles_fresh new_handle.
Proof.
  intros st HP x Hx. unfold exec, new_handle in *. simpl in *.
  specialize (HP x Hx). lia.
Qed.

Lemma fresh_clearTimeout (t : handle) : preserves handles_fresh (clearTimeout t).
Proof.
  intros st HP x Hx. unfold exec, clearTimeout, modify in *. simpl in *.
  apply list_elem_of_filter in Hx as [_ Hx]. apply (HP x Hx).
Qed.

Ltac fresh_steps :=
  steps_with ltac:(first [apply fresh_new_handle | apply fresh_clearTimeout]).

Lemma fresh_register (e : McpGatewayEntry) : preserves handles_fresh (register e).
Proof.
  intros st HP x Hx.
  destruct (register_effect e st) as (st1 & Hrun & _ & _ & _ & Hf & Ht).
  unfold exec in *. rewrite Hrun in *. simpl in *. rewrite Ht in Hx. rewrite Hf.
  specialize (HP x Hx). destruct (startable e); lia.
Qed.

Lemma fresh_from (w : Platform) (startup : bool) (i : nat) :
  preserves handles_fresh (checkAllHealth_from w startup i).
Proof. pass_steps fresh_steps. Qed.

Lemma fresh_settle (w : Platform) (ps : Pass) :
  preserves handles_fresh (checkAllHealth_settle w ps).
Proof. pass_steps fresh_steps. Qed.

Lemma fresh_step (ev : Event) (st st1 : State) :
  step ev st = Some st1 -> handles_fresh st -> handles_fresh st1.
Proof.
  destruct ev as [file|w|i w|t|p code|p| |k w]; simpl.
  - intros [= <-]. unfold startMcpGateways_begin, loadConfig. fresh_steps.
    apply preserves_for_of, fresh_register.
  - destruct (awaiting st); [discriminate|]. intros [= <-].
    apply preserves_bind; [|intros ?; apply fresh_from].
    apply preserves_modify. intros ? HP. exact HP.
  - destruct (bool_decide (i ∈ (intervals st).*1)); [|discriminate].
    intros [= <-]. apply fresh_from.
  - destruct (pending t (timeouts st)) as [managed|]; [|discriminate].
    intros [= <-] HP. unfold exec.
    assert (handles_fresh (remove_timeout t st)) as HPr.
    { intros x Hx. simpl in Hx. apply list_elem_of_filter in Hx as [_ Hx]. apply (HP x Hx). }
    destruct (store st !! managed) as [m|] eqn:Hm.
    + destruct (startGatewayProcess_effect (remove_timeout t st) managed m Hm)
        as (st2 & Hrun & _ & _ & Hf & Hts & _).
      rewrite Hrun. simpl. intros x Hx. rewrite Hts in Hx. rewrite Hf.
      specialize (HPr x Hx). simpl in HPr. destruct (type (entry m)); simpl; lia.
    + destruct (dangling_listener (remove_timeout t st) managed None Hm) as (_ & _ & ->).
      exact HPr.
  - destruct (listener_of p (children st)) as [managed|]; [|discriminate].
    intros [= <-] HP. unfold exec.
    destruct (store st !! managed) as [m|] eqn:Hm.
    + destruct (on_close_effect (remove_child p st) managed code m Hm)
        as (st2 & Hrun & _ & Hts & _ & _ & Hf).
      rewrite Hrun. simpl. intros x Hx. rewrite Hts in Hx. rewrite Hf. simpl in *.
      apply elem_of_app in Hx as [Hx|Hx]; [specialize (HP x Hx); lia|].
      apply list_elem_of_singleton in Hx as ->. simpl. lia.
    + destruct (dangling_listener (remove_child p st) managed code Hm) as (-> & _).
      exact HP.
  - destruct (listener_of p (children st)) as [managed|]; [|discriminate].
    intros [= <-]. unfold on_error. fresh_steps.
  - intros [= <-]. unfold stopMcpGateways, clearInterval, Map_clear. fresh_steps.
    apply preserves_for_of. intros [nm r]. unfold stop_one, kill. fresh_steps.
  - destruct (passes st !! k) as [ps|]; [|discriminate].
    intros [= <-] HP. apply (fresh_settle w ps (set_passes _ st)). exact HP.
Qed.

Lemma fresh_run (evs : list Event) (st st1 : State) :
  run evs st = Some st1 -> handles_fresh st -> handles_fresh st1.
Proof.
  revert st. induction evs as [|ev evs IH]; intros st; simpl.
  - intros [= <-]. auto.
  - destruct (step ev st) as [st2|] eqn:Hstep; [|discriminate].
    intros Hrun HP. apply (IH st2 Hrun), (fresh_step ev st st2 Hstep HP).
Qed.

Lemma pending_snoc_fresh (ts : list Timeout) (x : Timeout) :
  (forall y, y ∈ ts -> timeout_id y < timeout_id x) ->
  pending (timeout_id x) (ts ++ [x]) = Some (timeout_target x).
Proof.
  intros Hlt. induction ts as [|y ts IH]; simpl.
  - rewrite Nat.eqb_refl. reflexivity.
  - destruct (Nat.eqb_spec (timeout_id y) (timeout_id x)) as [Heq|_].
    + specialize (Hlt y ltac:(left)). lia.
    + apply IH. intros z Hz. apply Hlt. right. exact Hz.
Qed.

(** Shutdown does not detach the listeners: when a helper that was running
    at shutdown exits afterwards (from the SIGTERM, say), its exit is
    handled as any other, a restart timer is set for its object, and when
    the timer fires a new helper is started, although the registry is
    empty by then. *)
Theorem restart_survives_stop
    (evs : list Event) (st : State) (p : handle) (r : ref) (m : ManagedGateway)
    (code : option Z) :
  run evs initial = Some st ->
  listener_of p (children st) = Some r ->
  store st !! r = Some m ->
  type (entry m) = stdio ->
  exists st1 st2 st3 t p',
    step call_stop st = Some st1
    /\ managedGateways st1 = []
    /\ step (child_close p code) st1 = Some st2
    /\ pending t (timeouts st2) = Some r
    /\ step (timeout_fires t) st2 = Some st3
    /\ managedGateways st3 = []
    /\ (p', r) ∈ children st3
    /\ (process <$> store st3 !! r) = Some (Some p').
Proof.
  intros Hrun Hl Hm Hty.
  destruct (refs_valid_run evs st Hrun) as (Hrefs & _ & _).
  destruct (stop_state st Hrefs) as (st1 & Hstop & Hr1 & _ & Hs1 & Hc1 & Hf1 & _ & Ht1 & _).
  assert (step call_stop st = Some st1) as Hstep1.
  { simpl. unfold exec. rewrite Hstop. reflexivity. }
  assert (handles_fresh st1) as Hfresh1.
  { apply (fresh_step call_stop st st1 Hstep1).
    apply (fresh_run evs initial st Hrun). intros x Hx. inversion Hx. }
  rewrite <- Hs1 in Hm. rewrite <- Hc1 in Hl.
  destruct (on_close_effect (remove_child p st1) r code m Hm)
    as (st2 & Hclose & Hs2 & Ht2 & _ & Hr2 & _).
  assert (r < length (store st1)) as Hlt by (apply lookup_lt_Some in Hm; exact Hm).
  destruct (startGatewayProcess_effect (remove_timeout (fresh st1) st2) r
              {| entry := entry m; process := None; healthy := false;
                 restartCount := js_incr (restartCount m);
                 restartTimer := Some (fresh st1) |})
    as (st3 & Hfire & Hs3 & Hc3 & _ & _ & Hr3).
  { simpl. rewrite Hs2. apply list_lookup_insert_eq. exact Hlt. }
  simpl in Hs3, Hc3, Hr3. rewrite Hty in Hs3, Hc3.
  exists st1, st2, st3, (fresh st1), (fresh st2).
  split; [exact Hstep1|]. split; [exact Hr1|].
  split; [simpl; rewrite Hl; unfold exec; rewrite Hclose; reflexivity|].
  assert (pending (fresh st1) (timeouts st2) = Some r) as Hpend.
  { rewrite Ht2. simpl.
    apply (pending_snoc_fresh (timeouts st1)
             {| timeout_id := fresh st1; timeout_target := r;
                timeout_delay := getRestartDelay (restartCount m) |}).
    intros y Hy. apply (Hfresh1 y Hy). }
  split; [exact Hpend|].
  split; [simpl; rewrite Hpend; unfold exec; rewrite Hfire; reflexivity|].
  split; [rewrite Hr3, Hr2; exact Hr1|].
  split; [rewrite Hc3; apply elem_of_app; right; left|].
  rewrite Hs3, list_lookup_insert_eq; [reflexivity|].
  rewrite Hs2, length_insert. exact Hlt.
Qed.

(** ** More on health passes *)






Lemma for_of_app {A} (body : A -> M unit) (l1 l2 : list A) (st : State) :
  for_of (l1 ++ l2) body st
  = match for_of l1 body st with
    | (Normal _, st1) => for_of l2 body st1
    | (Throw e, st1) => (Throw e, st1)
    end.
Proof.
  revert st. induction l1 as [|x l1 IH]; intros st; [reflexivity|].
  simpl. unfold bind. destruct (body x st) as [[[]|e] st1]; [apply IH|reflexivity].
Qed.



Lemma probes_keep_tracks (w : Platform) (it : list (string * ref)) (st : State) :
  Forall2 same_process_track (store st) (store (exec (for_of it (checkHealth w)) st)).
Proof.
  apply (for_of_preserves (fun s => Forall2 same_process_track (store st) (store s))).
  - intros [nm r] st1 Htrack.
    destruct (checkHealth_effect w nm r st1) as [_ [Hsame|(m & b & Hm & _ & Hst)]].
    + rewrite Hsame. exact Htrack.
    + rewrite Hst. apply (same_process_track_insert _ _ _ m); auto.
      destruct (b && negb (healthy m)); repeat split.
  - apply same_process_track_refl.
Qed.

Lemma probes_leave_others (w : Platform) (it : list (string * ref)) (st : State) (r : ref) :
  r ∉ it.*2 ->
  store (exec (for_of it (checkHealth w)) st) !! r = store st !! r.
Proof.
  revert st. induction it as [|[nm r0] it IH]; intros st Hnot; [reflexivity|].
  rewrite fmap_cons in Hnot. apply not_elem_of_cons in Hnot as [Hne Hnot]. simpl in Hne.
  unfold exec in *.
  change (for_of ((nm, r0) :: it) (checkHealth w) st)
    with (bind (checkHealth w (nm, r0)) (fun _ => for_of it (checkHealth w)) st).
  unfold bind.
  pose proof (checkHealth_effect w nm r0 st) as [_ Hst]. unfold exec in Hst.
  destruct (checkHealth w (nm, r0) st) as [[[]|e] st1]; simpl in *.
  - rewrite (IH st1 Hnot).
    destruct Hst as [->|(m & b & _ & _ & ->)]; [reflexivity|].
    apply list_lookup_insert_ne. congruence.
  - destruct Hst as [->|(m & b & _ & _ & ->)]; [reflexivity|].
    apply list_lookup_insert_ne. congruence.
Qed.

(** A pass ends at the first gateway whose address [new URL] rejects: the
    pass throws there, with the state the probes before it have left.
    The gateways that come later in the registry are not probed in this
    pass, and keep their flags. *)
Theorem pass_stops_at_rejecting_probe
    (w : Platform) (st : State) (pre post : list (string * ref)) (nm : string) (r : ref)
    (m : ManagedGateway) :
  managedGateways st = pre ++ (nm, r) :: post ->
  outcome (for_of pre (checkHealth w)) st = Normal tt ->
  store st !! r = Some m ->
  URL_new w (ToString (getGatewayUrl (entry m))) = None ->
  checkAllHealth w st
  = (Throw (TypeError "Invalid URL"), exec (for_of pre (checkHealth w)) st)
  /\ (forall r', r' ∉ pre.*2 ->
        store (exec (checkAllHealth w) st) !! r' = store st !! r').
Proof.
  intros Hreg Hout Hm Hurl.
  assert (checkAllHealth w st
          = (Throw (TypeError "Invalid URL"), exec (for_of pre (checkHealth w)) st)) as Hrun.
  { unfold checkAllHealth, bind, gets. simpl. rewrite Hreg, for_of_app.
    pose proof (probes_keep_tracks w pre st) as Htrack.
    unfold outcome, exec in *.
    destruct (for_of pre (checkHealth w) st) as [[[]|e] st1]; simpl in *; [|discriminate].
    destruct (Forall2_lookup_l _ _ _ _ _ Htrack Hm) as (m1 & Hm1 & (He & _)).
    change (for_of ((nm, r) :: post) (checkHealth w) st1)
      with (bind (checkHealth w (nm, r)) (fun _ => for_of post (checkHealth w)) st1).
    unfold bind, checkHealth. run_m. rewrite Hm1. simpl.
    unfold healthCheck. rewrite He, Hurl. reflexivity. }
  split; [exact Hrun|].
  intros r' Hnot. unfold exec at 1. rewrite Hrun. simpl.
  apply probes_leave_others, Hnot.
Qed.

(** ** Polling *)

Lemma polling_register (st0 : State) (e : McpGatewayEntry) :
  preserves (polling_as_in st0) (register e).
Proof.
  unfold register, startGatewayProcess, spawnSupergateway, listen, new_object, new_handle.
  steps_with ltac:(intros ? HP; exact HP).
Qed.

Lemma polling_begin (st0 : State) (file : ConfigFile) :
  preserves (polling_as_in st0) (startMcpGateways_begin file).
Proof.
  unfold startMcpGateways_begin, loadConfig. steps_with fail.
  apply preserves_for_of, polling_register.
Qed.

Lemma polling_pass (st0 : State) (w : Platform) :
  preserves (polling_as_in st0) (checkAllHealth w).
Proof.
  unfold checkAllHealth. steps_with fail.
  apply preserves_for_of. intros [nm r]. unfold checkHealth. steps_with fail.
Qed.

Lemma polling_summary (st0 : State) (it : list (string * ref)) :
  preserves (polling_as_in st0) (for_of it summary).
Proof.
  apply preserves_for_of. intros [nm r]. unfold summary. steps_with fail.
Qed.

(** Whenever [startMcpGateways] throws, be it on the configuration or in
    the first health pass, it has set up no polling: no interval has been
    added and the handle on record is the one from before.  The gateways
    it has registered get no periodic health check. *)
Theorem throwing_start_sets_no_polling
    (w : Platform) (file : ConfigFile) (st : State) (e : JsError) :
  outcome (startMcpGateways w file) st = Throw e ->
  polling_as_in st (exec (startMcpGateways w file) st).
Proof.
  unfold startMcpGateways, outcome, exec, bind.
  pose proof (polling_begin st file st (conj eq_refl eq_refl)) as Hbegin.
  unfold exec in Hbegin.
  destruct (startMcpGateways_begin file st) as [[[|]|e0] st1]; simpl in *;
    [|discriminate|intros _; exact Hbegin].
  unfold startMcpGateways_resume, bind, modify. simpl.
  pose proof (polling_pass st w (set_awaiting (tail (awaiting st1)) st1) Hbegin) as Hpass.
  unfold exec in Hpass.
  destruct (checkAllHealth w (set_awaiting (tail (awaiting st1)) st1)) as [[[]|e1] st2];
    simpl in *; [|intros _; exact Hpass].
  unfold gets. simpl.
  pose proof (polling_summary st (managedGateways st2) st2 Hpass) as Hsum.
  unfold exec in Hsum.
  destruct (for_of (managedGateways st2) summary st2) as [[[]|e2] st3]; simpl in *;
    [discriminate|intros _; exact Hsum].
Qed.

(** A call of [startMcpGateways] on a non-empty list of declarations that
    returns normally has added one interval, with the polling period, and
    put its handle on record.  The intervals that were active before stay
    active: a handle that was on record is overwritten, not cleared. *)
Theorem completed_start_adds_interval
    (w : Platform) (gws : list McpGatewayEntry) (st : State) :
  gws <> [] ->
  outcome (startMcpGateways w (config_of gws)) st = Normal tt ->
  exists h,
    intervals (exec (startMcpGateways w (config_of gws)) st)
    = intervals st ++ [(h, HEALTH_CHECK_INTERVAL)]
    /\ healthCheckTimer (exec (startMcpGateways w (config_of gws)) st) = Some h.
Proof.
  intros Hne.
  unfold startMcpGateways, outcome, exec, bind.
  pose proof (polling_begin st (config_of gws) st (conj eq_refl eq_refl)) as Hbegin.
  unfold exec in Hbegin.
  assert (outcome (startMcpGateways_begin (config_of gws)) st <> Normal false) as Hsusp.
  { destruct gws as [|g gws]; [contradiction|].
    remember (g :: gws) as l eqn:Hl.
    assert ((length l =? 0)%nat = false) as Hlen by (rewrite Hl; reflexivity).
    unfold startMcpGateways_begin, config_of, loadConfig, outcome, bind, ret, modify.
    simpl. rewrite Hlen.
    destruct (for_of l register st) as [[[]|e0] st0]; simpl; discriminate. }
  unfold outcome in Hsusp.
  destruct (startMcpGateways_begin (config_of gws) st) as [[[|]|e0] st1]; simpl in *;
    [|contradiction|discriminate].
  unfold startMcpGateways_resume, bind, modify. simpl.
  pose proof (polling_pass st w (set_awaiting (tail (awaiting st1)) st1) Hbegin) as Hpass.
  unfold exec in Hpass.
  destruct (checkAllHealth w (set_awaiting (tail (awaiting st1)) st1)) as [[[]|e1] st2];
    simpl in *; [|discriminate].
  unfold gets. simpl.
  pose proof (polling_summary st (managedGateways st2) st2 Hpass) as Hsum.
  unfold exec in Hsum.
  destruct (for_of (managedGateways st2) summary st2) as [[[]|e2] st3]; simpl in *;
    [|discriminate].
  intros _. exists (fresh st3). destruct Hsum as [-> _]. split; reflexivity.
Qed.

(** ** Backoff *)

Lemma getRestartDelay_value (n : N) :
  getRestartDelay n = Fin (Z.min (1000 * 2 ^ Z.of_N n) 60000).
Proof.
  unfold getRestartDelay, Math_pow2, js_mul, MAX_RESTART_DELAY.
  assert (2 ^ 6 <= 2 ^ 1024)%Z as Hbig by (apply Z.pow_le_mono_r; lia).
  destruct (N.leb_spec n 1023) as [Hle|Hgt].
  - destruct (Z.ltb_spec (1000 * 2 ^ Z.of_N n) (2 ^ 1024)); simpl; [reflexivity|].
    f_equal. rewrite Z.min_r; [reflexivity|lia].
  - simpl. f_equal. rewrite Z.min_r; [reflexivity|].
    pose proof (pow2_ge_64 n ltac:(lia)). lia.
Qed.

(** The restart delay is always a finite number of milliseconds between
    1000 and 60000, it never decreases when the restart count grows, and
    it is at the cap from a restart count of 6 on. *)
Theorem restart_delay_bounds (n n' : N) :
  (n <= n')%N ->
  exists z z',
    getRestartDelay n = Fin z /\ getRestartDelay n' = Fin z'
    /\ (1000 <= z <= z')%Z /\ (z' <= 60000)%Z
    /\ ((6 <= n)%N -> z = 60000%Z).
Proof.
  intros Hle. rewrite !getRestartDelay_value.
  eexists. eexists. split; [reflexivity|]. split; [reflexivity|].
  assert (0 < 2 ^ Z.of_N n)%Z as H1 by (apply Z.pow_pos_nonneg; lia).
  assert (2 ^ Z.of_N n <= 2 ^ Z.of_N n')%Z as H2 by (apply Z.pow_le_mono_r; lia).
  split; [lia|]. split; [lia|].
  intros H6. pose proof (pow2_ge_64 n H6). lia.
Qed.

Lemma crash_round_effect (st : State) (r : ref) (m : ManagedGateway) (code : option Z) :
  store st !! r = Some m ->
  type (entry m) = stdio ->
  exists st' m',
    (on_close r code >> startGatewayProcess r) st = (Normal tt, st')
    /\ store st' !! r = Some m'
    /\ entry m' = entry m
    /\ healthy m' = false
    /\ restartCount m' = js_incr (restartCount m)
    /\ length (store st') = length (store st).
Proof.
  intros Hm Hty.
  destruct (on_close_effect st r code m Hm) as (st1 & Hclose & Hs1 & _).
  assert (r < length (store st)) as Hlt by (apply lookup_lt_Some in Hm; exact Hm).
  destruct (startGatewayProcess_effect st1 r
              {| entry := entry m; process := None; healthy := false;
                 restartCount := js_incr (restartCount m);
                 restartTimer := Some (fresh st) |})
    as (st2 & Hstart & Hs2 & _).
  { rewrite Hs1. apply list_lookup_insert_eq, Hlt. }
  simpl in Hs2. rewrite Hty in Hs2.
  eexists st2, _. unfold bind. rewrite Hclose, Hstart.
  split; [reflexivity|]. rewrite Hs2.
  split; [apply list_lookup_insert_eq; rewrite Hs1, length_insert; exact Hlt|].
  repeat split. rewrite !length_insert, Hs1, length_insert. reflexivity.
Qed.

Lemma crash_rounds_effect (k : nat) (st : State) (r : ref) (m : ManagedGateway)
    (code : option Z) :
  store st !! r = Some m ->
  type (entry m) = stdio ->
  (restartCount m + N.of_nat k <= 2 ^ 53)%N ->
  exists st' m',
    crash_rounds k r code st = (Normal tt, st')
    /\ store st' !! r = Some m'
    /\ entry m' = entry m
    /\ restartCount m' = (restartCount m + N.of_nat k)%N
    /\ (k <> 0 -> healthy m' = false).
Proof.
  revert st m. induction k as [|k IH]; intros st m Hm Hty Hbound.
  - exists st, m. split; [reflexivity|]. split; [exact Hm|]. split; [reflexivity|].
    split; [lia|]. intros H. contradiction.
  - destruct (crash_round_effect st r m code Hm Hty)
      as (st1 & m1 & Hround & Hm1 & He1 & Hh1 & Hc1 & _).
    assert (restartCount m1 = (restartCount m + 1)%N) as Hc1'.
    { rewrite Hc1. unfold js_incr.
      destruct (N.ltb_spec (restartCount m) (2 ^ 53)); lia. }
    destruct (IH st1 m1 Hm1) as (st' & m' & Hrest & Hm' & He' & Hc' & Hh').
    { rewrite He1. exact Hty. }
    { lia. }
    exists st', m'.
    change (crash_rounds (S k) r code)
      with (on_close r code >> startGatewayProcess r >> crash_rounds k r code).
    unfold bind in *.
    destruct (on_close r code st) as [[[]|e0] st0]; [|discriminate].
    destruct (startGatewayProcess r st0) as [[[]|e1] st0']; [|discriminate].
    injection Hround as ->.
    split; [exact Hrest|]. split; [exact Hm'|]. split; [congruence|].
    split; [lia|]. intros _.
    destruct k as [|k']; [|apply Hh'; discriminate].
    simpl in Hrest. injection Hrest as <-. congruence.
Qed.

(** After [k] exits in a row, each followed by its restart, with no
    healthy probe in between, the restart count has grown by [k], and the
    next exit sets a restart timer of [min(1000 * 2^(n + k), 60000)]
    milliseconds, [n] being the count before the first of them. *)
Theorem backoff_after_consecutive_exits
    (k : nat) (st : State) (r : ref) (m : ManagedGateway) (code : option Z) :
  store st !! r = Some m ->
  type (entry m) = stdio ->
  (restartCount m + N.of_nat k < 2 ^ 53)%N ->
  let st' := exec (crash_rounds k r code) st in
  exists m' x,
    store st' !! r = Some m'
    /\ restartCount m' = (restartCount m + N.of_nat k)%N
    /\ timeouts (exec (on_close r code) st') = timeouts st' ++ [x]
    /\ timeout_target x = r
    /\ timeout_delay x
       = Fin (Z.min (1000 * 2 ^ (Z.of_N (restartCount m) + Z.of_nat k)) 60000).
Proof.
  intros Hm Hty Hbound.
  destruct (crash_rounds_effect k st r m code Hm Hty ltac:(lia))
    as (st' & m' & Hrun & Hm' & _ & Hc' & _).
  unfold exec. rewrite Hrun. simpl.
  destruct (on_close_effect st' r code m' Hm') as (st2 & Hclose & _ & Hts & _).
  rewrite Hclose. simpl.
  eexists m', _. split; [exact Hm'|]. split; [exact Hc'|]. split; [exact Hts|].
  split; [reflexivity|]. simpl.
  rewrite getRestartDelay_value, Hc', N2Z.inj_add, nat_N_Z. reflexivity.
Qed.


(** ** What startup creates *)

Lemma register_all_effect (gws : list McpGatewayEntry) (st : State) :
  exists st',
    for_of gws register st = (Normal tt, st')
    /\ length (store st') = length (store st) + length gws
    /\ length (children st')
       = length (children st) + length (filter (fun e => startable e = true) gws)
    /\ (forall i, i < length (store st) -> store st' !! i = store st !! i)
    /\ (forall i e, gws !! i = Some e ->
          exists m, store st' !! (length (store st) + i) = Some m
                    /\ entry m = e /\ healthy m = false /\ restartCount m = 0%N
                    /\ restartTimer m = None
                    /\ (is_Some (process m) <-> startable e = true))
    /\ timeouts st' = timeouts st
    /\ awaiting st' = awaiting st.
Proof.
  revert st. induction gws as [|e gws IH]; intros st.
  - exists st. split; [reflexivity|]. simpl. repeat split; try lia.
    intros i e H. rewrite lookup_nil in H. discriminate.
  - destruct (register_effect e st) as (st1 & Hrun & Hs1 & _ & Hc1 & _ & Ht1).
    assert (awaiting st1 = awaiting st) as Ha1.
    { revert Hrun. unfold register, startGatewayProcess. run_m.
      destruct (type e); simpl.
      - destruct (negb (truthy_string (command e)) || negb (truthy_number (port e)));
          simpl; [intros [= <-]; reflexivity|].
        rewrite list_lookup_middle by reflexivity. simpl.
        destruct (type e); simpl; intros [= <-]; reflexivity.
      - intros [= <-]. reflexivity. }
    destruct (IH st1) as (st' & Hrest & Hlen & Hch & Hold & Hnew & Hts & Haw).
    exists st'. split.
    { change (for_of (e :: gws) register st)
        with (bind (register e) (fun _ => for_of gws register) st).
      unfold bind. rewrite Hrun. exact Hrest. }
    assert (length (store st1) = S (length (store st))) as Hl1
      by (rewrite Hs1, length_app; simpl; lia).
    rewrite Hl1 in Hlen. rewrite Hl1 in Hold. rewrite Hl1 in Hnew.
    split; [simpl; lia|]. split.
    { rewrite Hch, Hc1, length_app, filter_cons.
      destruct (startable e) eqn:Hst; simpl.
      - destruct (decide (true = true)); [simpl; lia|contradiction].
      - destruct (decide (false = true)); [discriminate|simpl; lia]. }
    split.
    { intros i Hi. rewrite Hold by lia. rewrite Hs1. apply lookup_app_l. exact Hi. }
    split; [|split; [congruence|congruence]].
    intros [|i] e0 He0; simpl in He0.
    + injection He0 as <-. rewrite Nat.add_0_r, Hold by lia.
      rewrite Hs1, list_lookup_middle by reflexivity.
      eexists. split; [reflexivity|]. simpl. repeat split; try reflexivity.
      * destruct (startable e); [reflexivity|]. intros [x Hx]. discriminate.
      * intros ->. eexists. reflexivity.
    + destruct (Hnew i e0 He0) as (m & Hm & Hrest').
      exists m. split; [|exact Hrest'].
      rewrite <- Hm. f_equal. lia.
Qed.

(** Startup creates one object per declaration, in order, after the
    objects that exist already and without touching them: each new object
    is unhealthy, has a restart count of 0 and no restart timer, and has a
    helper exactly when its declaration is a stdio one with a command and
    a port.  As many helpers are started as there are such declarations,
    and no restart timer is set. *)
Theorem startup_creates_objects (gws : list McpGatewayEntry) (st : State) :
  let st' := exec (startMcpGateways_begin (config_of gws)) st in
  length (store st') = length (store st) + length gws
  /\ length (children st')
     = length (children st) + length (filter (fun e => startable e = true) gws)
  /\ (forall i, i < length (store st) -> store st' !! i = store st !! i)
  /\ (forall i e, gws !! i = Some e ->
        exists m, store st' !! (length (store st) + i) = Some m
                  /\ entry m = e /\ healthy m = false /\ restartCount m = 0%N
                  /\ restartTimer m = None
                  /\ (is_Some (process m) <-> startable e = true))
  /\ timeouts st' = timeouts st.
Proof.
  destruct (register_all_effect gws st) as (st1 & Hrun & Hlen & Hch & Hold & Hnew & Hts & _).
  unfold startMcpGateways_begin, config_of, loadConfig, exec, bind, ret, modify. simpl.
  destruct (length gws =? 0)%nat eqn:Hzero.
  - apply Nat.eqb_eq, nil_length_inv in Hzero. subst gws. simpl.
    injection Hrun as <-. repeat split; try lia.
    intros i e H. rewrite lookup_nil in H. discriminate.
  - rewrite Hrun. simpl. repeat split; assumption.
Qed.

(** ** Resolving commands *)

Lemma first_existing_spec (h : Host) (ps : list string) :
  match first_existing h ps with
  | Some p =>
      exists i, ps !! i = Some p /\ existsSync h p = true
                /\ forall j q, j < i -> ps !! j = Some q -> existsSync h q = false
  | None => forall q, q ∈ ps -> existsSync h q = false
  end.
Proof.
  induction ps as [|p ps IH]; simpl.
  - intros q Hq. inversion Hq.
  - destruct (existsSync h p) eqn:Hp.
    + exists 0. split; [reflexivity|]. split; [exact Hp|]. intros j q Hj. lia.
    + destruct (first_existing h ps) as [p'|].
      * destruct IH as (i & Hi & Hex & Hbefore). exists (S i).
        split; [exact Hi|]. split; [exact Hex|].
        intros [|j] q Hj Hq; simpl in Hq.
        -- injection Hq as <-. exact Hp.
        -- apply (Hbefore j q); [lia|exact Hq].
      * intros q Hq. apply elem_of_cons in Hq as [->|Hq]; auto.
Qed.

(** Resolving a name never fails and never loses it.  When [which]
    answers, its trimmed output is the result, whatever the file system
    holds; when it fails, the result is the first of the three candidate
    paths that exists (it exists and the candidates before it do not), or
    else it is the name itself, and then none of the candidates exists. *)
Theorem resolveCommand_spec (h : Host) (cmd : string) :
  exists p,
    resolveCommand h (Some cmd) = Some p
    /\ (forall out, which h cmd = Some out -> p = String_trim out)
    /\ (which h cmd = None ->
          (exists i, candidates cmd !! i = Some p /\ existsSync h p = true
                     /\ forall j q, j < i -> candidates cmd !! j = Some q ->
                                     existsSync h q = false)
          \/ (p = cmd /\ forall q, q ∈ candidates cmd -> existsSync h q = false)).
Proof.
  unfold resolveCommand, ToString.
  destruct (which h cmd) as [out|] eqn:Hw.
  - exists (String_trim out). split; [reflexivity|]. split; [|discriminate].
    intros out' [= <-]. reflexivity.
  - pose proof (first_existing_spec h (candidates cmd)) as Hfirst.
    destruct (first_existing h (candidates cmd)) as [p|].
    + exists p. split; [reflexivity|]. split; [discriminate|]. intros _. left. exact Hfirst.
    + exists cmd. split; [reflexivity|]. split; [discriminate|]. intros _. right.
      split; [reflexivity|exact Hfirst].
Qed.

(** ** The helper's output *)

Lemma strip_space (c : ascii) (s : string) :
  (Nat.eqb (nat_of_ascii c) 9 || Nat.eqb (nat_of_ascii c) 10
   || Nat.eqb (nat_of_ascii c) 11 || Nat.eqb (nat_of_ascii c) 12
   || Nat.eqb (nat_of_ascii c) 13 || Nat.eqb (nat_of_ascii c) 32) = true ->
  strip_any white_space (String c s) = Some s.
Proof.
  intros Hc.
  assert (c = ascii_of_nat 9 \/ c = ascii_of_nat 10 \/ c = ascii_of_nat 11
          \/ c = ascii_of_nat 12 \/ c = ascii_of_nat 13 \/ c = ascii_of_nat 32) as Hcases.
  { rewrite <- (ascii_nat_embedding c).
    repeat (apply orb_true_iff in Hc as [Hc|Hc]);
      apply Nat.eqb_eq in Hc; rewrite Hc; tauto. }
  destruct Hcases as [->|[->|[->|[->|[->| ->]]]]]; reflexivity.
Qed.

Lemma trim_blank (s : string) : blank s = true -> String_trim s = EmptyString.
Proof.
  intros Hb. unfold String_trim.
  assert (String_trimStart s = EmptyString) as ->.
  { unfold String_trimStart. induction s as [|c s IH]; [reflexivity|].
    simpl in Hb. apply andb_true_iff in Hb as [Hc Hb].
    change (String.length (String c s)) with (S (String.length s)).
    cbn [strip_all]. rewrite (strip_space c s Hc). apply IH, Hb. }
  reflexivity.
Qed.

Lemma append_nil_r (s : string) : s +:+ "" = s.
Proof.
  induction s as [|c s IH]; [reflexivity|].
  change (String c (s +:+ "") = String c s). rewrite IH. reflexivity.
Qed.

Lemma length_append (a b : string) :
  String.length (a +:+ b) = String.length a + String.length b.
Proof.
  induction a as [|c a IH]; [reflexivity|].
  change (S (String.length (a +:+ b)) = S (String.length a + String.length b)).
  rewrite IH. reflexivity.
Qed.

Lemma rev_app_append (s1 s2 : string) : String.rev_app s1 s2 = String.rev s1 +:+ s2.
Proof.
  unfold String.rev. revert s2. induction s1 as [|c s1 IH]; intros s2; [reflexivity|].
  simpl. rewrite (IH (String c s2)), (IH (String c "")), append_assoc. reflexivity.
Qed.

Lemma rev_append (a b : string) : String.rev (a +:+ b) = String.rev b +:+ String.rev a.
Proof.
  revert b. induction a as [|c a IH]; intros b.
  - change ("" +:+ b) with b. symmetry. apply append_nil_r.
  - change (String c a +:+ b) with (String c (a +:+ b)).
    unfold String.rev at 1 3. simpl. rewrite !rev_app_append, IH, append_assoc.
    reflexivity.
Qed.

Lemma rev_rev (s : string) : String.rev (String.rev s) = s.
Proof.
  induction s as [|c s IH]; [reflexivity|].
  unfold String.rev at 2. simpl. rewrite rev_app_append, rev_append, IH. reflexivity.
Qed.

Lemma length_rev (s : string) : String.length (String.rev s) = String.length s.
Proof.
  induction s as [|c s IH]; [reflexivity|].
  unfold String.rev. simpl. rewrite rev_app_append, length_append, IH. simpl. lia.
Qed.

Lemma made_of_app (pats : list string) (a b : string) :
  made_of pats a -> made_of pats b -> made_of pats (a +:+ b).
Proof.
  intros Ha Hb. induction Ha as [|pat s Hpat Hs IH]; [exact Hb|].
  rewrite append_assoc. apply made_of_cons; assumption.
Qed.

Lemma made_of_rev (pats : list string) (s : string) :
  made_of (map String.rev pats) s -> made_of pats (String.rev s).
Proof.
  intros Hs. induction Hs as [|pat s Hpat Hs IH]; [apply made_of_nil|].
  apply list_elem_of_fmap in Hpat as (pat0 & -> & Hpat0).
  rewrite rev_append, rev_rev. apply made_of_app; [exact IH|].
  rewrite <- (append_nil_r pat0). apply made_of_cons; [exact Hpat0|apply made_of_nil].
Qed.

Lemma strip_prefix_append (pat s s' : string) :
  strip_prefix pat s = Some s' -> s = pat +:+ s'.
Proof.
  revert s. induction pat as [|a pat IH]; intros s; simpl.
  - intros [= ->]. reflexivity.
  - destruct s as [|b s]; [discriminate|].
    destruct (Ascii.eqb_spec a b) as [->|_]; [|discriminate].
    intros H. rewrite (IH s H). reflexivity.
Qed.

Lemma strip_prefix_found (pat s : string) : strip_prefix pat (pat +:+ s) = Some s.
Proof.
  induction pat as [|a pat IH]; [reflexivity|].
  change (String a pat +:+ s) with (String a (pat +:+ s)). simpl.
  rewrite Ascii.eqb_refl. exact IH.
Qed.

Lemma strip_prefix_shorter (pat a b : string) :
  strip_prefix pat (a +:+ b) = None -> strip_prefix pat a = None.
Proof.
  revert a. induction pat as [|c pat IH]; intros a; [discriminate|].
  destruct a as [|d a]; [reflexivity|].
  change (String d a +:+ b) with (String d (a +:+ b)). simpl.
  destruct (Ascii.eqb c d); [apply IH|reflexivity].
Qed.

Lemma strip_any_elem (pats : list string) (s s' : string) :
  strip_any pats s = Some s' -> exists pat, pat ∈ pats /\ s = pat +:+ s'.
Proof.
  induction pats as [|pat pats IH]; simpl; [discriminate|].
  destruct (strip_prefix pat s) as [s0|] eqn:Hp.
  - intros [= ->]. exists pat. split; [left|]. apply strip_prefix_append, Hp.
  - intros H. destruct (IH H) as (pat0 & Hin & Heq). exists pat0. split; [right|]; auto.
Qed.

Lemma strip_any_none (pats : list string) (s : string) :
  strip_any pats s = None -> forall pat s', pat ∈ pats -> s <> pat +:+ s'.
Proof.
  induction pats as [|pat0 pats IH]; simpl; intros Hs pat s' Hin; [inversion Hin|].
  destruct (strip_prefix pat0 s) as [s0|] eqn:Hp; [discriminate|].
  apply elem_of_cons in Hin as [->|Hin]; [|apply IH; assumption].
  intros ->. rewrite strip_prefix_found in Hp. discriminate.
Qed.

Lemma strip_any_shorter (pats : list string) (a b : string) :
  strip_any pats (a +:+ b) = None -> strip_any pats a = None.
Proof.
  induction pats as [|pat pats IH]; simpl; [reflexivity|].
  destruct (strip_prefix pat (a +:+ b)) eqn:Hp; [discriminate|].
  rewrite (strip_prefix_shorter _ _ _ Hp). exact IH.
Qed.

Lemma strip_all_prefix (pats : list string) (fuel : nat) (s : string) :
  exists pre, made_of pats pre /\ s = pre +:+ strip_all pats fuel s.
Proof.
  revert s. induction fuel as [|fuel IH]; intros s; simpl.
  - exists "". split; [apply made_of_nil|reflexivity].
  - destruct (strip_any pats s) as [s'|] eqn:Hs.
    + apply strip_any_elem in Hs as (pat & Hin & ->).
      destruct (IH s') as (pre & Hpre & Heq).
      exists (pat +:+ pre). split; [apply made_of_cons; assumption|].
      rewrite append_assoc, <- Heq. reflexivity.
    + exists "". split; [apply made_of_nil|reflexivity].
Qed.

Lemma strip_all_stuck (pats : list string) (fuel : nat) (s : string) :
  Forall (fun pat => pat <> "") pats ->
  String.length s <= fuel ->
  strip_any pats (strip_all pats fuel s) = None.
Proof.
  intros Hpats. revert s. induction fuel as [|fuel IH]; intros s Hlen; simpl.
  - destruct s as [|c s]; [|simpl in Hlen; lia].
    clear Hlen. induction Hpats as [|pat pats Hpat _ IHp]; [reflexivity|].
    simpl. destruct pat as [|a pat]; [contradiction|]. exact IHp.
  - destruct (strip_any pats s) as [s'|] eqn:Hs; [|exact Hs].
    apply IH. apply strip_any_elem in Hs as (pat & Hin & ->).
    rewrite length_append in Hlen.
    assert (pat <> "") as Hne by (apply (proj1 (Forall_forall _ _) Hpats), Hin).
    destruct pat as [|a pat]; [contradiction|]. simpl in Hlen. lia.
Qed.

(** What [trim] gives: the string without the white space at its two
    ends. *)
Lemma String_trim_spec (s : string) :
  (exists pre post, s = pre +:+ String_trim s +:+ post /\ spaces pre /\ spaces post)
  /\ (forall ws rest, ws ∈ white_space -> String_trim s <> ws +:+ rest)
  /\ (forall ws rest, ws ∈ white_space -> String_trim s <> rest +:+ ws).
Proof.
  assert (Forall (fun pat => pat <> "") white_space) as Hws
    by (apply (bool_decide_unpack _); vm_compute; exact I).
  assert (Forall (fun pat => pat <> "") (map String.rev white_space)) as Hrws
    by (apply (bool_decide_unpack _); vm_compute; exact I).
  unfold String_trim, String_trimEnd, String_trimStart.
  destruct (strip_all_prefix white_space (String.length s) s) as (pre & Hpre & Hs).
  pose proof (strip_all_stuck white_space (String.length s) s Hws (le_n _)) as Hstart.
  set (t := strip_all white_space (String.length s) s) in *.
  destruct (strip_all_prefix (map String.rev white_space) (String.length t) (String.rev t))
    as (q & Hq & Ht).
  pose proof (strip_all_stuck (map String.rev white_space) (String.length t) (String.rev t)
                Hrws ltac:(rewrite length_rev; reflexivity)) as Hend.
  set (r := strip_all (map String.rev white_space) (String.length t) (String.rev t)) in *.
  assert (t = String.rev r +:+ String.rev q) as Hsplit.
  { rewrite <- (rev_rev t), Ht, rev_append. reflexivity. }
  split; [|split].
  - exists pre, (String.rev q). split; [rewrite <- Hsplit; exact Hs|].
    split; [exact Hpre|]. apply made_of_rev, Hq.
  - intros ws rest Hin. apply (strip_any_none white_space); [|exact Hin].
    apply (strip_any_shorter _ _ (String.rev q)). rewrite <- Hsplit. exact Hstart.
  - intros ws rest Hin Heq.
    apply (strip_any_none _ _ Hend (String.rev ws) (String.rev rest)).
    + apply list_elem_of_fmap. exists ws. split; [reflexivity|exact Hin].
    + rewrite <- rev_append, <- Heq, rev_rev. reflexivity.
Qed.

(** Output of the helper reaches the log and nothing else.  A chunk adds
    one line at debug level, tagged with the gateway's name, which is the
    chunk without the white space at its two ends; when nothing is left
    of the chunk (a chunk of spaces, tabs and line breaks, say) it adds
    none. *)
Theorem on_data_logs_trimmed_line (e : McpGatewayEntry) (data : string) (st : State) :
  outcome (on_data e data) st = Normal tt
  /\ ((String_trim data = EmptyString /\ exec (on_data e data) st = st)
      \/ (String_trim data <> EmptyString
          /\ exec (on_data e data) st
             = set_log (log st ++ [{| level := debug;
                                      ctx := [("gateway", LStr (name e))];
                                      msg := String_trim data |}]) st))
  /\ (exists pre post,
        data = pre +:+ String_trim data +:+ post /\ spaces pre /\ spaces post)
  /\ (forall ws rest, ws ∈ white_space -> String_trim data <> ws +:+ rest)
  /\ (forall ws rest, ws ∈ white_space -> String_trim data <> rest +:+ ws)
  /\ (blank data = true -> exec (on_data e data) st = st).
Proof.
  destruct (String_trim_spec data) as (Hparts & Hstart & Hend).
  unfold on_data, outcome, exec.
  destruct (String.eqb_spec (String_trim data) EmptyString) as [Heq|Hne].
  - split; [reflexivity|]. split; [left; split; [exact Heq|reflexivity]|].
    split; [exact Hparts|]. split; [exact Hstart|]. split; [exact Hend|]. reflexivity.
  - split; [reflexivity|]. split; [right; split; [exact Hne|reflexivity]|].
    split; [exact Hparts|]. split; [exact Hstart|]. split; [exact Hend|].
    intros Hb. exfalso. apply Hne, trim_blank, Hb.
Qed.

(** ** The optional flag *)

Lemma apart_fields (st1 st2 : State) :
  apart_from_optional st1 = apart_from_optional st2 <->
  (without_optional <$> store st1) = (without_optional <$> store st2)
  /\ outside_store_and_log_equal st1 st2.
Proof.
  unfold apart_from_optional, outside_store_and_log_equal.
  destruct st1, st2. simpl. split.
  - intros [= Hs -> -> -> -> -> -> -> -> ->]. repeat split. exact Hs.
  - intros (-> & -> & -> & -> & -> & -> & -> & -> & -> & ->). reflexivity.
Qed.

Lemma apart_alter (st1 st2 : State) (l1 l2 : list LogEntry) (r : ref)
    (f : ManagedGateway -> ManagedGateway) :
  (forall m, without_optional (f m) = f (without_optional m)) ->
  apart_from_optional st1 = apart_from_optional st2 ->
  apart_from_optional (set_log l1 (set_store (alter f r (store st1)) st1))
  = apart_from_optional (set_log l2 (set_store (alter f r (store st2)) st2)).
Proof.
  intros Hf HR. apply apart_fields in HR as [Hs Hout]. apply apart_fields. simpl.
  split; [|exact Hout].
  rewrite !(list_fmap_alter without_optional f f) by (apply Forall_forall; auto).
  rewrite Hs. reflexivity.
Qed.

Lemma apart_log (st : State) (l : list LogEntry) :
  apart_from_optional (set_log l st) = apart_from_optional st.
Proof. reflexivity. Qed.

Lemma checkHealth_apart (w : Platform) (it : string * ref) (st1 st2 : State) :
  apart_from_optional st1 = apart_from_optional st2 ->
  outcome (checkHealth w it) st1 = outcome (checkHealth w it) st2
  /\ apart_from_optional (exec (checkHealth w it) st1)
     = apart_from_optional (exec (checkHealth w it) st2).
Proof.
  destruct it as [nm r]. intros HR.
  pose proof HR as HR'. apply apart_fields in HR' as [Hs _].
  assert (without_optional <$> store st1 !! r = without_optional <$> store st2 !! r) as Hr.
  { rewrite <- !list_lookup_fmap, Hs. reflexivity. }
  unfold checkHealth. run_m.
  destruct (store st1 !! r) as [m1|] eqn:Hm1, (store st2 !! r) as [m2|] eqn:Hm2;
    simpl in Hr; try discriminate; simpl; [|split; [reflexivity|exact HR]].
  injection Hr as Hn Hty Hcmd Hargs Henv Hport Hurl Hdesc Hproc Hh Hrc Hrt.
  assert (getGatewayUrl (entry m1) = getGatewayUrl (entry m2)) as ->.
  { unfold getGatewayUrl. rewrite Hty, Hurl, Hport. reflexivity. }
  destruct (healthCheck w (ToString (getGatewayUrl (entry m2)))) as [b|e]; simpl;
    [|split; [reflexivity|exact HR]].
  rewrite !list_lookup_alter_eq, Hm1, Hm2. simpl. rewrite Hh.
  assert (forall b0 m, without_optional (set_healthy b0 m)
                       = set_healthy b0 (without_optional m)) as Hcomm1 by reflexivity.
  pose proof (apart_alter st1 st2 (log st1) (log st2) r (set_healthy b) (Hcomm1 b) HR)
    as HR1.
  destruct b, (healthy m2); simpl.
  - split; [reflexivity|exact HR1].
  - split; [reflexivity|].
    apply (apart_alter (set_store _ st1) (set_store _ st2) _ _ r (set_restartCount 0));
      [reflexivity|exact HR1].
  - destruct (truthy_bool (optional (entry m1))), (truthy_bool (optional (entry m2)));
      unfold modify; simpl; (split; [reflexivity|exact HR1]).
  - split; [reflexivity|exact HR1].
Qed.

Lemma available_loop_apart (objs1 objs2 : list ManagedGateway) (it : list (string * ref))
    (results : list Available) :
  (without_optional <$> objs1) = (without_optional <$> objs2) ->
  available_loop objs1 it results = available_loop objs2 it results.
Proof.
  intros Hs. revert results. induction it as [|[nm r] it IH]; intros results; [reflexivity|].
  assert (without_optional <$> objs1 !! r = without_optional <$> objs2 !! r) as Hr.
  { rewrite <- !list_lookup_fmap, Hs. reflexivity. }
  simpl. destruct (objs1 !! r) as [m1|], (objs2 !! r) as [m2|];
    simpl in Hr; try discriminate; [|reflexivity].
  injection Hr as Hn Hty Hcmd Hargs Henv Hport Hurl Hdesc Hproc Hh Hrc Hrt.
  assert (getGatewayUrl (entry m1) = getGatewayUrl (entry m2)) as ->.
  { unfold getGatewayUrl. rewrite Hty, Hurl, Hport. reflexivity. }
  rewrite Hh. destruct (healthy m2); simpl; [|apply IH].
  destruct (getGatewayUrl (entry m2)); [apply IH|reflexivity].
Qed.

Lemma probes_apart (w : Platform) (it : list (string * ref)) (st1 st2 : State) :
  apart_from_optional st1 = apart_from_optional st2 ->
  outcome (for_of it (checkHealth w)) st1 = outcome (for_of it (checkHealth w)) st2
  /\ apart_from_optional (exec (for_of it (checkHealth w)) st1)
     = apart_from_optional (exec (for_of it (checkHealth w)) st2).
Proof.
  revert st1 st2. induction it as [|x it IH]; intros st1 st2 HR.
  - split; [reflexivity|exact HR].
  - destruct (checkHealth_apart w x st1 st2 HR) as [Hout Hex].
    unfold outcome, exec in *. simpl. unfold bind.
    destruct (checkHealth w x st1) as [[[]|e1] s1], (checkHealth w x st2) as [[[]|e2] s2];
      simpl in *; try discriminate.
    + apply (IH s1 s2 Hex).
    + split; [exact Hout|exact Hex].
Qed.

(** The [optional] flag of a declaration decides the severity of log
    lines and nothing else: two states that differ only in [optional]
    flags and in their logs come out of a health pass with the same
    outcome, still differing only in those, and publish the same
    directory. *)
Theorem optional_only_affects_log (w : Platform) (st1 st2 : State) :
  apart_from_optional st1 = apart_from_optional st2 ->
  outcome (checkAllHealth w) st1 = outcome (checkAllHealth w) st2
  /\ apart_from_optional (exec (checkAllHealth w) st1)
     = apart_from_optional (exec (checkAllHealth w) st2)
  /\ getAvailableGateways st1 = getAvailableGateways st2.
Proof.
  intros HR.
  assert (managedGateways st1 = managedGateways st2) as Hreg.
  { apply apart_fields in HR as [_ Hout]. symmetry. apply Hout. }
  destruct (probes_apart w (managedGateways st2) st1 st2 HR) as [Hout Hex].
  split; [|split].
  - unfold checkAllHealth, outcome, bind, gets in *. simpl. rewrite Hreg. exact Hout.
  - unfold checkAllHealth, exec, bind, gets in *. simpl. rewrite Hreg. exact Hex.
  - unfold getAvailableGateways. rewrite Hreg.
    apply available_loop_apart. apply apart_fields in HR as [Hs _]. exact Hs.
Qed.

(** ** The directory between health passes *)

Lemma names_assign (r : ref) (f : ManagedGateway -> ManagedGateway) :
  preserves names_distinct (assign r f).
Proof.
  intros st HP. unfold names_distinct, exec, assign, modify in *. simpl. exact HP.
Qed.

Ltac names_steps := steps_with ltac:(apply names_assign).

Lemma names_register (e : McpGatewayEntry) : preserves names_distinct (register e).
Proof.
  intros st HP. unfold names_distinct in *.
  destruct (register_effect e st) as (st' & Hrun & _ & Hmap & _).
  unfold exec. rewrite Hrun. simpl. rewrite Hmap. apply Map_set_NoDup, HP.
Qed.

Lemma names_from (w : Platform) (startup : bool) (i : nat) :
  preserves names_distinct (checkAllHealth_from w startup i).
Proof. pass_steps names_steps. Qed.

Lemma names_settle (w : Platform) (ps : Pass) :
  preserves names_distinct (checkAllHealth_settle w ps).
Proof. pass_steps names_steps. Qed.

Lemma names_step (ev : Event) (st st1 : State) :
  step ev st = Some st1 -> names_distinct st -> names_distinct st1.
Proof.
  destruct ev as [file|w|i w|t|p code|p| |k w]; simpl.
  - intros [= <-]. unfold startMcpGateways_begin, loadConfig. names_steps.
    apply preserves_for_of, names_register.
  - destruct (awaiting st); [discriminate|]. intros [= <-].
    apply preserves_bind; [|intros ?; apply names_from].
    apply preserves_modify. intros ? HP. exact HP.
  - destruct (bool_decide (i ∈ (intervals st).*1)); [|discriminate].
    intros [= <-]. apply names_from.
  - destruct (pending t (timeouts st)) as [managed|]; [|discriminate].
    intros [= <-] HP. unfold exec, names_distinct in *.
    destruct (store st !! managed) as [m|] eqn:Hm.
    + destruct (startGatewayProcess_effect (remove_timeout t st) managed m Hm)
        as (st2 & Hrun & _ & _ & _ & _ & Hmap).
      rewrite Hrun. simpl. rewrite Hmap. exact HP.
    + destruct (dangling_listener (remove_timeout t st) managed None Hm) as (_ & _ & ->).
      exact HP.
  - destruct (listener_of p (children st)) as [managed|]; [|discriminate].
    intros [= <-] HP. unfold exec, names_distinct in *.
    destruct (store st !! managed) as [m|] eqn:Hm.
    + destruct (on_close_effect (remove_child p st) managed code m Hm)
        as (st2 & Hrun & _ & _ & _ & Hmap & _).
      rewrite Hrun. simpl. rewrite Hmap. exact HP.
    + destruct (dangling_listener (remove_child p st) managed code Hm) as (-> & _).
      exact HP.
  - destruct (listener_of p (children st)) as [managed|]; [|discriminate].
    intros [= <-]. unfold on_error. names_steps.
  - intros [= <-]. unfold stopMcpGateways, clearInterval, Map_clear. names_steps.
    + apply preserves_for_of. intros [nm r]. unfold stop_one, kill, clearTimeout.
      names_steps.
    + intros st0 _. apply NoDup_nil_2.
  - destruct (passes st !! k) as [ps|]; [|discriminate].
    intros [= <-] HP. apply (names_settle w ps (set_passes _ st)). exact HP.
Qed.

Lemma names_run (evs : list Event) (st : State) :
  run evs initial = Some st -> names_distinct st.
Proof.
  assert (forall st0, run evs st0 = Some st -> names_distinct st0 -> names_distinct st)
    as Hgen.
  { induction evs as [|ev evs IH]; intros st0; simpl.
    - intros [= <-]. auto.
    - destruct (step ev st0) as [st2|] eqn:Hstep; [|discriminate].
      intros Hrun HP. apply (IH st2 Hrun), (names_step ev st0 st2 Hstep HP). }
  intros Hrun. apply (Hgen initial Hrun). apply NoDup_nil_2.
Qed.

(** The results collected so far are a prefix of the loop's result. *)
Lemma available_loop_acc (objs : list ManagedGateway) (it : list (string * ref))
    (results : list Available) :
  available_loop objs it results
  = match available_loop objs it [] with
    | Normal l => Normal (results ++ l)
    | Throw e => Throw e
    end.
Proof.
  revert results. induction it as [|[nm r] it IH]; intros results; simpl.
  - rewrite app_nil_r. reflexivity.
  - destruct (objs !! r) as [m|]; [|reflexivity].
    destruct (healthy m); simpl; [|apply IH].
    destruct (getGatewayUrl (entry m)) as [address|]; [|reflexivity].
    rewrite (IH (results ++ _)), (IH [_]).
    destruct (available_loop objs it []); [|reflexivity].
    rewrite <- app_assoc. reflexivity.
Qed.

(** The directory depends on the flag and the declaration of each object
    only. *)
Lemma available_loop_ext (objs objs' : list ManagedGateway) (it : list (string * ref))
    (results : list Available) :
  (forall i, (fun m => (healthy m, entry m)) <$> objs' !! i
             = (fun m => (healthy m, entry m)) <$> objs !! i) ->
  available_loop objs' it results = available_loop objs it results.
Proof.
  intros Hext. revert results. induction it as [|[nm r] it IH]; intros results; simpl.
  - reflexivity.
  - specialize (Hext r).
    destruct (objs' !! r) as [m'|], (objs !! r) as [m|]; simpl in Hext;
      try discriminate; [|reflexivity].
    injection Hext as Hh He. rewrite Hh, He.
    destruct (healthy m); simpl; [|apply IH].
    destruct (getGatewayUrl (entry m)); [apply IH|reflexivity].
Qed.

(** Clearing the flag of [r] takes the entries of [r] out of the loop's
    result and leaves the others. *)
Lemma available_loop_withdraw (objs objs' : list ManagedGateway) (reg it : list (string * ref))
    (r : ref) (l : list Available) :
  (exists m', objs' !! r = Some m' /\ healthy m' = false) ->
  (forall i, i <> r -> objs' !! i = objs !! i) ->
  (forall x, x ∈ it -> Map_get x.1 reg = Some x.2) ->
  available_loop objs it [] = Normal l ->
  available_loop objs' it []
  = Normal (filter (fun a => Map_get (available_name a) reg <> Some r) l).
Proof.
  intros (m' & Hm' & Hh') Hother. revert l.
  induction it as [|[nm k] it IH]; intros l Hreg; simpl.
  - intros [= <-]. reflexivity.
  - assert (forall x, x ∈ it -> Map_get x.1 reg = Some x.2) as Hreg'.
    { intros x Hx. apply Hreg. right. exact Hx. }
    specialize (Hreg (nm, k) ltac:(left)). simpl in Hreg.
    destruct (objs !! k) as [m|] eqn:Hm; [|discriminate].
    destruct (decide (k = r)) as [->|Hne].
    + rewrite Hm', Hh'. simpl.
      destruct (healthy m); simpl; [|apply IH, Hreg'].
      destruct (getGatewayUrl (entry m)) as [address|]; [|discriminate].
      rewrite available_loop_acc.
      destruct (available_loop objs it []) as [l0|] eqn:Hl0; [|discriminate].
      intros [= <-]. rewrite (IH l0 Hreg' eq_refl).
      simpl. rewrite filter_cons_False; [reflexivity|].
      simpl. intros Hno. apply Hno, Hreg.
    + rewrite (Hother k Hne), Hm.
      destruct (healthy m); simpl; [|apply IH, Hreg'].
      destruct (getGatewayUrl (entry m)) as [address|]; [|discriminate].
      rewrite available_loop_acc, (available_loop_acc objs' it).
      destruct (available_loop objs it []) as [l0|] eqn:Hl0; [|discriminate].
      intros [= <-]. rewrite (IH l0 Hreg' eq_refl).
      simpl. rewrite filter_cons_True; [reflexivity|].
      simpl. rewrite Hreg. intros [= Heq]. apply Hne, Heq.
Qed.

(** When a helper exits or fails to spawn, its gateway leaves the
    directory at once, without waiting for the next health pass, and the
    other gateways stay as they are.  ([ev] is the ['close'] or the
    ['error'] event of a child; an object that the registry does not lead
    to any more has no entry to lose.) *)
Theorem exited_gateway_is_withdrawn
    (evs : list Event) (st st' : State) (ev : Event) (p : handle) (r : ref)
    (l : list Available) :
  run evs initial = Some st ->
  (exists code, ev = child_close p code) \/ ev = child_error p ->
  listener_of p (children st) = Some r ->
  step ev st = Some st' ->
  getAvailableGateways st = Normal l ->
  getAvailableGateways st' = Normal (not_of r st l)
  /\ (forall nm a, (nm, r) ∈ managedGateways st -> a ∈ not_of r st l ->
        available_name a <> nm)
  /\ (forall a, a ∈ l -> Map_get (available_name a) (managedGateways st) <> Some r ->
        a ∈ not_of r st l).
Proof.
  intros Hrun Hev Hp Hstep Hl.
  destruct (refs_valid_run evs st Hrun) as (_ & Hch & _).
  pose proof (names_run evs st Hrun) as Hnd.
  apply listener_of_elem in Hp as Hin.
  pose proof (proj1 (Forall_forall _ _) Hch _ Hin) as [m Hm]. simpl in Hm.
  assert (managedGateways st' = managedGateways st
          /\ (exists m', store st' !! r = Some m' /\ healthy m' = false)
          /\ (forall i, i <> r -> store st' !! i = store st !! i)) as (Hmap & Hr & Hother).
  { destruct Hev as [[code ->]| ->]; simpl in Hstep; rewrite Hp in Hstep;
      injection Hstep as <-.
    - destruct (on_close_effect (remove_child p st) r code m Hm)
        as (st2 & Hrun2 & Hstore & _ & _ & Hmap & _).
      unfold exec. rewrite Hrun2. simpl. split; [exact Hmap|]. rewrite Hstore. simpl.
      split.
      + eexists. split; [apply list_lookup_insert_eq, (lookup_lt_Some _ _ _ Hm)|reflexivity].
      + intros i Hi. apply list_lookup_insert_ne. congruence.
    - unfold exec. rewrite (on_error_effect st r m Hm). simpl. split; [reflexivity|].
      split.
      + exists (set_healthy false m). split; [|reflexivity].
        rewrite list_lookup_alter_eq, Hm. reflexivity.
      + intros i Hi. apply list_lookup_alter_ne. congruence. }
  split; [|split].
  - unfold getAvailableGateways, not_of in *. rewrite Hmap.
    apply (available_loop_withdraw (store st)); try assumption.
    intros [nm k] Hx. simpl. apply Map_elem_get; assumption.
  - intros nm a Hreg Ha. unfold not_of in Ha.
    apply list_elem_of_filter in Ha as [Hno _]. intros Heq.
    apply Hno. rewrite Heq. apply Map_elem_get; assumption.
  - intros a Ha Hno. unfold not_of. apply list_elem_of_filter. split; assumption.
Qed.

(** A restart does not bring a gateway back into the directory: when a
    restart timer fires and the helper is started again, the directory is
    what it was.  Only a health pass publishes a gateway. *)
Theorem restart_publishes_nothing
    (evs : list Event) (st st' : State) (t : handle) :
  run evs initial = Some st ->
  step (timeout_fires t) st = Some st' ->
  getAvailableGateways st' = getAvailableGateways st.
Proof.
  intros Hrun Hstep. simpl in Hstep.
  destruct (pending t (timeouts st)) as [r|] eqn:Ht; [|discriminate].
  injection Hstep as <-.
  destruct (refs_valid_run evs st Hrun) as (_ & _ & Hts).
  apply pending_elem in Ht as (x & Hx & _ & <-).
  pose proof (proj1 (Forall_forall _ _) Hts _ Hx) as [m Hm].
  destruct (startGatewayProcess_effect (remove_timeout t st) (timeout_target x) m Hm)
    as (st2 & Hrun2 & Hstore & _ & _ & _ & Hmap).
  unfold exec. rewrite Hrun2. simpl. unfold getAvailableGateways.
  rewrite Hmap. simpl. apply available_loop_ext. intros i. rewrite Hstore. simpl.
  destruct (type (entry m)); [|reflexivity].
  destruct (decide (i = timeout_target x)) as [->|Hne].
  - rewrite list_lookup_insert_eq by apply (lookup_lt_Some _ _ _ Hm).
    rewrite Hm. reflexivity.
  - rewrite list_lookup_insert_ne by congruence. reflexivity.
Qed.

(** ** Passes with events in between *)














Lemma tracks_from (w : Platform) (startup : bool) (i : nat) (st0 : State) :
  preserves (same_tracks st0) (checkAllHealth_from w startup i).
Proof. pass_steps track_steps. Qed.

Lemma tracks_settle (w : Platform) (ps : Pass) (st0 : State) :
  preserves (same_tracks st0) (checkAllHealth_settle w ps).
Proof. pass_steps track_steps. Qed.

Lemma timers_from (w : Platform) (startup : bool) (i : nat) (st0 : State) :
  preserves (fun s => timeouts s = timeouts st0 /\ signalled s = signalled st0)
    (checkAllHealth_from w startup i).
Proof. pass_steps ltac:(steps_with fail). Qed.

Lemma timers_settle (w : Platform) (ps : Pass) (st0 : State) :
  preserves (fun s => timeouts s = timeouts st0 /\ signalled s = signalled st0)
    (checkAllHealth_settle w ps).
Proof. pass_steps ltac:(steps_with fail). Qed.

(** Whatever is delivered in between, the pass itself stays off the
    process track: the end of the grace wait, a firing of the polling
    interval and the answer of a probe leave the registry, the children,
    the restart timers and the signals sent as they are, and in every
    object the declaration, the process handle and the restart timer. *)
Theorem pass_events_leave_process_track (ev : Event) (st st' : State) :
  pass_event ev ->
  step ev st = Some st' ->
  managedGateways st' = managedGateways st
  /\ children st' = children st
  /\ timeouts st' = timeouts st
  /\ signalled st' = signalled st
  /\ Forall2 same_process_track (store st) (store st').
Proof.
  assert (same_tracks st st) as Hrefl.
  { repeat split. apply same_process_track_refl. }
  intros Hev Hstep.
  assert (same_tracks st st'
          /\ timeouts st' = timeouts st /\ signalled st' = signalled st)
    as ((Hreg & Hch & Htr) & Hts & Hsig); [|auto].
  destruct ev as [file|w|i w|t|p code|p| |k w]; try contradiction; simpl in Hstep.
  - destruct (awaiting st); [discriminate|]. injection Hstep as <-. split.
    + apply (preserves_bind (same_tracks st)); [|intros ?; apply tracks_from|exact Hrefl].
      apply preserves_modify. intros ? HP. exact HP.
    + apply (preserves_bind (fun s => timeouts s = timeouts st /\ signalled s = signalled st));
        [|intros ?; apply timers_from|split; reflexivity].
      apply preserves_modify. intros ? HP. exact HP.
  - destruct (bool_decide (i ∈ (intervals st).*1)); [|discriminate].
    injection Hstep as <-. split.
    + apply tracks_from, Hrefl.
    + apply (timers_from w false 0 st). split; reflexivity.
  - destruct (passes st !! k) as [ps|]; [|discriminate]. injection Hstep as <-. split.
    + apply (tracks_settle w ps st (set_passes _ st)). exact Hrefl.
    + apply (timers_settle w ps st (set_passes _ st)). split; reflexivity.
Qed.

Lemma from_keeps_store (w : Platform) (startup : bool) (i : nat) (st : State) :
  store (exec (checkAllHealth_from w startup i) st) = store st.
Proof.
  assert (preserves (fun s => store s = store st) (checkAllHealth_from w startup i)) as H.
  { pass_steps ltac:(steps_with fail). }
  apply H. reflexivity.
Qed.

(** When the answer to a probe arrives that was sent while the gateway
    was flagged unhealthy, and the address has responded, the gateway is
    healthy with a restart count of 0, whatever the count was and whatever
    happened while the probe was in flight: the backoff starts over, and
    the next exit of the helper is followed by a restart after 1000
    milliseconds. *)
Theorem healthy_probe_resets_backoff
    (w : Platform) (st st' : State) (k : nat) (ps : Pass) (m : ManagedGateway)
    (code : option Z) :
  passes st !! k = Some ps ->
  pass_wasHealthy ps = false ->
  probe_answer (http_get w (pass_request ps)) = true ->
  store st !! pass_managed ps = Some m ->
  step (probe_settles k w) st = Some st' ->
  store st' = <[pass_managed ps := set_restartCount 0 (set_healthy true m)]> (store st)
  /\ exists x,
       timeouts (exec (on_close (pass_managed ps) code) st') = timeouts st' ++ [x]
       /\ timeout_target x = pass_managed ps
       /\ timeout_delay x = Fin 1000.
Proof.
  intros Hk Hwas Hans Hm Hstep. simpl in Hstep. rewrite Hk in Hstep.
  injection Hstep as <-.
  assert (store (exec (checkAllHealth_settle w ps) (set_passes (delete k (passes st)) st))
          = <[pass_managed ps := set_restartCount 0 (set_healthy true m)]> (store st))
    as Hstore.
  { unfold exec, checkAllHealth_settle, bind.
    destruct (checkHealth_settle (pass_name ps, pass_managed ps) (pass_wasHealthy ps)
                (probe_answer (http_get w (pass_request ps)))
                (set_passes (delete k (passes st)) st)) as [c s] eqn:Hsettle.
    revert Hsettle. rewrite Hwas, Hans. unfold checkHealth_settle. run_m.
    rewrite list_lookup_alter_eq, Hm. simpl. intros [= <- <-].
    pose proof (from_keeps_store w (pass_of_startup ps) (pass_index ps)) as Hfrom.
    unfold exec in Hfrom. rewrite Hfrom. simpl.
    rewrite list_alter_alter_eq, (alter_known _ _ _ m Hm). reflexivity. }
  split; [exact Hstore|].
  assert (store (exec (checkAllHealth_settle w ps) (set_passes (delete k (passes st)) st))
            !! pass_managed ps = Some (set_restartCount 0 (set_healthy true m))) as Hm'.
  { rewrite Hstore. apply list_lookup_insert_eq, (lookup_lt_Some _ _ _ Hm). }
  destruct (on_close_effect _ (pass_managed ps) code _ Hm') as (st2 & Hclose & _ & Hts & _).
  unfold exec at 1. rewrite Hclose. simpl.
  eexists. split; [exact Hts|]. split; reflexivity.
Qed.

(** ** Concrete instances *)

Ltac refs_resolve :=
  vm_compute; repeat (apply Forall_cons; split; [eexists; reflexivity|]); constructor.

Lemma stdioCmd_merges_arguments_witness :
  stdioCmd Rig.host (Rig.fetch ["-y"; "a b"]) = stdioCmd Rig.host (Rig.fetch ["-y"; "a"; "b"]).
Proof.
  destruct (stdioCmd_merges_arguments Rig.host (Rig.fetch ["-y"; "a b"])
              (Rig.fetch ["-y"; "a"; "b"]) ["-y"] [] "a" "b") as [H _];
    [reflexivity..|exact H].
Defined.

Lemma stopMcpGateways_effect_witness :
  managedGateways (exec stopMcpGateways Lab.all_up) = []
  /\ 0 ∈ signalled (exec stopMcpGateways Lab.all_up).
Proof.
  destruct (stopMcpGateways_effect Lab.all_up) as (_ & Hr & _ & _ & _ & _ & _ & _ & _ & Hk);
    [refs_resolve|].
  split; [exact Hr|].
  eapply (Hk "echo" 0); [|vm_compute; reflexivity|reflexivity].
  replace (managedGateways Lab.all_up) with [("echo", 0); ("db", 1); ("notes", 2)]
    by (vm_compute; reflexivity).
  left.
Defined.

Lemma stopMcpGateways_idempotent_witness :
  stopMcpGateways (exec stopMcpGateways Lab.all_up)
  = (Normal tt, exec stopMcpGateways Lab.all_up).
Proof.
  apply stopMcpGateways_idempotent. refs_resolve.
Defined.

Lemma restart_survives_stop_witness :
  exists st1 st2 st3 t p',
    step call_stop Lab.echo_running = Some st1
    /\ step (child_close 0 None) st1 = Some st2
    /\ step (timeout_fires t) st2 = Some st3
    /\ managedGateways st3 = []
    /\ (p', 0) ∈ children st3.
Proof.
  destruct (restart_survives_stop [call_start (config_of [Lab.echo])] Lab.echo_running
              0 0 Lab.echo_object None)
    as (st1 & st2 & st3 & t & p' & H1 & _ & H2 & _ & H3 & H4 & H5 & _);
    [vm_compute; reflexivity..|].
  exists st1, st2, st3, t, p'. repeat split; assumption.
Defined.

Lemma pass_stops_at_rejecting_probe_witness :
  outcome (checkAllHealth Lab.all_respond) Rig.mixed = Throw (TypeError "Invalid URL")
  /\ store (exec (checkAllHealth Lab.all_respond) Rig.mixed) !! 2 = store Rig.mixed !! 2.
Proof.
  edestruct (pass_stops_at_rejecting_probe Lab.all_respond Rig.mixed
               [("echo", 0)] [("db", 2)] "files" 1) as [Hrun Hothers];
    [vm_compute; reflexivity..|].
  split.
  - unfold outcome. rewrite Hrun. reflexivity.
  - apply Hothers. intros H.
    apply list_elem_of_singleton in H. discriminate.
Defined.

Lemma throwing_start_sets_no_polling_witness :
  intervals (exec (startMcpGateways Lab.all_respond (config_of [Lab.no_port])) initial) = [].
Proof.
  destruct (throwing_start_sets_no_polling Lab.all_respond (config_of [Lab.no_port])
              initial (TypeError "Invalid URL")) as [H _];
    [vm_compute; reflexivity|exact H].
Defined.

Lemma completed_start_adds_interval_witness :
  exists h,
    healthCheckTimer (exec (startMcpGateways Lab.all_respond (config_of [Lab.echo])) initial)
    = Some h.
Proof.
  destruct (completed_start_adds_interval Lab.all_respond [Lab.echo] initial)
    as (h & _ & H); [discriminate|vm_compute; reflexivity|].
  exists h. exact H.
Defined.

Lemma restart_delay_bounds_witness :
  exists z z', getRestartDelay 3 = Fin z /\ getRestartDelay 7 = Fin z' /\ (z <= z')%Z.
Proof.
  destruct (restart_delay_bounds 3 7) as (z & z' & H1 & H2 & H3 & _); [lia|].
  exists z, z'. repeat split; [exact H1|exact H2|lia].
Defined.

Lemma backoff_after_consecutive_exits_witness :
  exists x,
    timeouts (exec (on_close 0 None) (exec (crash_rounds 3 0 None) Lab.echo_running))
    = timeouts (exec (crash_rounds 3 0 None) Lab.echo_running) ++ [x]
    /\ timeout_delay x = Fin 8000.
Proof.
  destruct (backoff_after_consecutive_exits 3 Lab.echo_running 0 Lab.echo_object None)
    as (m' & x & _ & _ & Hts & _ & Hd); [vm_compute; reflexivity..|].
  exists x. split; [exact Hts|]. rewrite Hd. reflexivity.
Defined.


Lemma optional_only_affects_log_witness :
  getAvailableGateways Lab.all_up = getAvailableGateways (apart_from_optional Lab.all_up).
Proof.
  destruct (optional_only_affects_log Lab.all_respond Lab.all_up
              (apart_from_optional Lab.all_up)) as (_ & _ & H);
    [vm_compute; reflexivity|exact H].
Defined.

Lemma exited_gateway_is_withdrawn_witness :
  getAvailableGateways (exec (on_close 0 None) (remove_child 0 Lab.all_up))
  = Normal [{| available_name := "db"; available_url := "https://db.example:443" |};
            {| available_name := "notes";
               available_url := "http://host.docker.internal:8080/mcp" |}].
Proof.
  edestruct (exited_gateway_is_withdrawn
               [call_start (config_of [Lab.echo; Lab.db; Lab.local_http]);
                grace_elapsed Lab.all_respond; probe_settles 0 Lab.all_respond;
                probe_settles 0 Lab.all_respond; probe_settles 0 Lab.all_respond]
               Lab.all_up (exec (on_close 0 None) (remove_child 0 Lab.all_up))
               (child_close 0 None) 0 0) as [H _];
    [vm_compute; reflexivity | left; exists None; reflexivity | vm_compute; reflexivity..|].
  rewrite H. vm_compute. reflexivity.
Defined.

Lemma restart_publishes_nothing_witness :
  getAvailableGateways
    (exec (startGatewayProcess 0)
       (remove_timeout 1 (exec (on_close 0 (Some 1%Z)) (remove_child 0 Lab.echo_running))))
  = getAvailableGateways (exec (on_close 0 (Some 1%Z)) (remove_child 0 Lab.echo_running)).
Proof.
  apply (restart_publishes_nothing
           [call_start (config_of [Lab.echo]); child_close 0 (Some 1%Z)] _ _ 1);
    vm_compute; reflexivity.
Defined.





Lemma healthy_probe_resets_backoff_witness :
  exists st' x,
    (restartCount <$> store Lab.echo_probed !! 0) = Some 1%N
    /\ step (probe_settles 0 Lab.all_respond) Lab.echo_probed = Some st'
    /\ (restartCount <$> store st' !! 0) = Some 0%N
    /\ timeouts (exec (on_close 0 None) st') = timeouts st' ++ [x]
    /\ timeout_delay x = Fin 1000.
Proof.
  edestruct healthy_probe_resets_backoff
    with (w := Lab.all_respond) (st := Lab.echo_probed) (k := 0) (code := @None Z)
    as [Hs (x & Hts & _ & Hd)]; [vm_compute; reflexivity..|].
  eexists _, x. split; [reflexivity|]. split; [vm_compute; reflexivity|].
  split; [reflexivity|]. split; [exact Hts|exact Hd].
Defined.

Lemma pass_events_leave_process_track_witness :
  exists st',
    step (probe_settles 0 Lab.all_respond) Lab.echo_probed = Some st'
    /\ children st' = children Lab.echo_probed
    /\ timeouts st' = timeouts Lab.echo_probed
    /\ (healthy <$> store st' !! 0) = Some true.
Proof.
  eexists. split; [vm_compute; reflexivity|].
  edestruct pass_events_leave_process_track
    with (ev := probe_settles 0 Lab.all_respond) (st := Lab.echo_probed)
    as (_ & Hch & Hts & _); [exact I|vm_compute; reflexivity|].
  split; [exact Hch|]. split; [exact Hts|]. reflexivity.
Defined.
